(** * A shallow embedding of the dojo-guestbook service (src/main.go)

    The development follows the handlers of [main.go]:
    - [atoiDefault] and the parameter block at the top of [BurnHandler];
    - the memory-pressure loop of [BurnHandler];
    - the worker pool of [BurnHandler] (goroutines, the shared
      [context.WithTimeout] context and the unbuffered [done] channel),
      as an interleaving step machine with an event log;
    - [ListRangeHandler] and [ListPushHandler] over a model of the list
      store. *)

From Stdlib Require Import ZArith Floats.
From Stdlib Require Import Ascii String.
From stdpp Require Import base list gmap strings.

Open Scope Z_scope.
#[local] Set Warnings "-inexact-float".

(* ------------------------------------------------------------------ *)
(** ** Go's [int]: 64-bit two's complement *)

Definition int_min : Z := - 2 ^ 63.
Definition int_max : Z := 2 ^ 63 - 1.

(** Wrap-around of a 64-bit signed multiplication result. *)
Definition wrap64 (z : Z) : Z :=
  let m := z mod 2 ^ 64 in if 2 ^ 63 <=? m then m - 2 ^ 64 else m.

(* ------------------------------------------------------------------ *)
(** ** [strconv.Atoi] (Go standard library)

    [Atoi] accepts an optional ['+'] or ['-'] followed by one or more
    decimal digits (no underscores in base 10); any other string is a
    syntax error, and a value outside the range of [int] is a range error.
    [atoiDefault] only looks at whether an error was returned, so the
    model returns [None] for either error. *)

Definition digit_val (c : ascii) : option Z :=
  let n := Z.of_nat (nat_of_ascii c) in
  if (48 <=? n) && (n <=? 57) then Some (n - 48) else None.

Fixpoint digits_acc (acc : Z) (s : string) : option Z :=
  match s with
  | EmptyString => Some acc
  | String c rest =>
      match digit_val c with
      | Some d => digits_acc (acc * 10 + d) rest
      | None => None
      end
  end.

(** One or more decimal digits. *)
Definition digits (s : string) : option Z :=
  match s with
  | EmptyString => None
  | _ => digits_acc 0 s
  end.

Definition in_int_range (v : Z) : option Z :=
  if (int_min <=? v) && (v <=? int_max) then Some v else None.

Definition Atoi (s : string) : option Z :=
  match s with
  | EmptyString => None
  | String c rest =>
      if ascii_dec c "-" then
        v ← digits rest; in_int_range (- v)
      else if ascii_dec c "+" then
        v ← digits rest; in_int_range v
      else
        v ← digits s; in_int_range v
  end.

(** [func atoiDefault(s string, d int) int] *)
Definition atoiDefault (s : string) (d : Z) : Z :=
  match Atoi s with
  | Some v => v
  | None => d
  end.

(* ------------------------------------------------------------------ *)
(** ** The query of a request: [url.Values] ([map[string][]string]) *)

Abbreviation Values := (gmap string (list string)).

(** [Values.Get]: the first value for the key, or [""]. *)
Definition Get (q : Values) (key : string) : string :=
  match q !! key with
  | Some (v :: _) => v
  | _ => ""
  end.

(* ------------------------------------------------------------------ *)
(** ** Parameter block of [BurnHandler] *)

Record LoadRequest := {
  seconds : Z;
  workers : Z;
  memMB : Z
}.

(** Lines 107-119 of [BurnHandler]; [ncpu] is [runtime.NumCPU()]. *)
Definition resolve (q : Values) (ncpu : Z) : LoadRequest :=
  let seconds := atoiDefault (Get q "seconds") 20 in
  let seconds := if seconds <? 1 then 1 else seconds in
  let workers := atoiDefault (Get q "workers") ncpu in
  let workers := if workers <? 1 then 1 else workers in
  let memMB := atoiDefault (Get q "mem_mb") 0 in
  let memMB := if memMB <? 0 then 0 else memMB in
  {| seconds := seconds; workers := workers; memMB := memMB |}.

(* ------------------------------------------------------------------ *)
(** ** The compute loop of a worker goroutine *)

Definition x0 : float := 0.0001%float.

(** One pass through the [default:] branch:
    [x += math.Sqrt(x); if x > 1e9 { x = 0.0001 }]. *)
Definition burn_step (x : float) : float :=
  let x := (x + sqrt x)%float in
  if (1e9 <? x)%float then x0 else x.

(** The value of [x] after [n] passes. *)
Definition burn_iter (n : nat) : float := Nat.iter n burn_step x0.

Definition in_bounds (x : float) : bool := ((0 <? x) && (x <=? 1e9))%float.

(* ------------------------------------------------------------------ *)
(** ** Events observed while a [/burn] request runs *)

Inductive event :=
  | EAlloc (i : nat)              (** [b := make([]byte, 1024*1024)] *)
  | EWrite (i j : nat) (v : Z)    (** [b[j] = byte(j)] in block [i] *)
  | ECtx (c : nat)                (** [context.WithTimeout] creates context [c] *)
  | EDone (c : nat)               (** context [c] becomes done *)
  | ESpawn (k : nat)              (** [go func() {...}()], goroutine [k] *)
  | ESeeDone (k : nat)            (** goroutine [k] takes [case <-ctx.Done()] *)
  | ESignal (k : nat)             (** [done <- struct{}{}] by [k] meets [<-done] *)
  | EResponse.                    (** [w.Write] of the body *)

(* ------------------------------------------------------------------ *)
(** ** The memory-pressure loop (lines 122-129) *)

Definition MiB : nat := 1024 * 1024.
Definition stride : nat := 4096.

(** [byte(j)] for [j >= 0]. *)
Definition byte_of (j : nat) : Z := Z.of_nat j mod 256.

(** [for j := 0; j < len(b); j += 4096 { b[j] = byte(j) }], run with
    [fuel] iterations at most ([len(b) + 1] suffices). *)
Fixpoint touch_loop (fuel : nat) (i j : nat) (b : list Z) : list Z * list event :=
  match fuel with
  | O => (b, [])
  | S fuel =>
      if Nat.ltb j (length b) then
        let r := touch_loop fuel i (j + stride)%nat (<[j := byte_of j]> b) in
        (r.1, EWrite i j (byte_of j) :: r.2)
      else (b, [])
  end.

(** One iteration of the outer loop: [b := make([]byte, size)], touch
    it, append it to [junk]; the handler calls it with [size = MiB]. *)
Definition alloc_block (size i : nat) : list Z * list event :=
  let b := replicate size 0 in
  let r := touch_loop (S (length b)) i 0 b in
  (r.1, EAlloc i :: r.2).

(** [for i := 0; i < memMB; i++ { ...; junk = append(junk, b) }] *)
Fixpoint alloc_loop (size n i : nat) (junk : list (list Z)) : list (list Z) * list event :=
  match n with
  | O => (junk, [])
  | S n =>
      let blk := alloc_block size i in
      let r := alloc_loop size n (S i) (junk ++ [blk.1]) in
      (r.1, blk.2 ++ r.2)
  end.

Definition alloc_phase (memMB : Z) : list (list Z) * list event :=
  alloc_loop MiB (Z.to_nat memMB) 0 [].

(* ------------------------------------------------------------------ *)
(** ** [time.Duration(seconds)*time.Second]: int64 nanoseconds *)

Definition Second : Z := 1000000000.

Definition burn_timeout (seconds : Z) : Z := wrap64 (seconds * Second).

(* ------------------------------------------------------------------ *)
(** ** The worker pool (lines 131-158) *)

(** A context created by [context.WithTimeout(parent, timeout)]. *)
Record context := {
  cparent : nat;   (** the inbound [r.Context()] *)
  ctimeout : Z;    (** the timeout, in nanoseconds *)
  cdone : bool     (** whether [ctx.Done()] is closed *)
}.

(** Where a goroutine is in its body. *)
Inductive tpc :=
  | TRun (x : float)   (** in the [for] loop, with the current [x] *)
  | TSend              (** blocked on [done <- struct{}{}] *)
  | TDone.             (** returned *)

Record task := {
  tctx : nat;          (** the context captured by the closure *)
  tstate : tpc
}.

(** Where the handler goroutine is. *)
Inductive phase :=
  | PAlloc                 (** the memory-pressure loop *)
  | PCtx                   (** [ctx, cancel := context.WithTimeout(...)] *)
  | PSpawn (i : nat)       (** spawning loop, [i] goroutines started *)
  | PWait (i : nat)        (** receiving loop, [i] signals received *)
  | PReturned.             (** after [w.Write] and the deferred [cancel()] *)

(** The part of [http.ResponseWriter] the handler touches. *)
Record response := {
  status : option Z;
  header : list (string * string);
  body : string
}.

Definition empty_response : response :=
  {| status := None; header := []; body := "" |}.

(** [w.Header().Set(k, v)] *)
Definition header_set (r : response) (k v : string) : response :=
  {| status := status r;
     header := (k, v) :: filter (fun kv => kv.1 <> k) (header r);
     body := body r |}.

(** [w.Write(b)]: an implicit [WriteHeader(http.StatusOK)] comes first
    when no status has been written yet. *)
Definition write (r : response) (b : string) : response :=
  {| status := Some (default 200 (status r));
     header := header r;
     body := body r +:+ b |}.

Definition quote : string := String (ascii_of_nat 34) EmptyString.

(** The literal [`{"ok":true}`]. *)
Definition ok_body : string := "{" +:+ quote +:+ "ok" +:+ quote +:+ ":true}".

Record state := {
  ph : phase;
  ctxs : list context;      (** contexts created by this invocation *)
  hctx : option nat;        (** the handler's [ctx] variable *)
  tasks : list task;        (** the goroutines started, by index *)
  junk : list (list Z);     (** the handler's [junk] slice *)
  log : list event;
  resp : response
}.

Definition init_state : state :=
  {| ph := PAlloc; ctxs := []; hctx := None; tasks := []; junk := [];
     log := []; resp := empty_response |}.

(** The scheduler picks the handler goroutine, worker [k], or the
    runtime making context [c] done (deadline reached or the inbound
    request cancelled). *)
Inductive action :=
  | AHandler
  | ATask (k : nat)
  | AExpire (c : nat).

Section Machine.

(** The resolved parameters and the inbound request's context. *)
Variable lr : LoadRequest.
Variable req_ctx : nat.

Definition set_ph (st : state) (p : phase) : state :=
  {| ph := p; ctxs := ctxs st; hctx := hctx st; tasks := tasks st;
     junk := junk st; log := log st; resp := resp st |}.

Definition set_task (st : state) (k : nat) (t : task) (e : list event) : state :=
  {| ph := ph st; ctxs := ctxs st; hctx := hctx st;
     tasks := <[k := t]> (tasks st); junk := junk st;
     log := log st ++ e; resp := resp st |}.

Definition mark_done (c : context) : context :=
  {| cparent := cparent c; ctimeout := ctimeout c; cdone := true |}.

(** [context.WithTimeout(r.Context(), d)]: a non-positive timeout gives
    a context that is done at once. *)
Definition with_timeout (parent : nat) (d : Z) : context :=
  {| cparent := parent; ctimeout := d; cdone := d <=? 0 |}.

(** One step of the handler goroutine. *)
Definition handler_step (st : state) : option state :=
  match ph st with
  | PAlloc =>
      let a := alloc_phase (memMB lr) in
      Some {| ph := PCtx; ctxs := ctxs st; hctx := hctx st; tasks := tasks st;
              junk := a.1; log := log st ++ a.2; resp := resp st |}
  | PCtx =>
      let c := with_timeout req_ctx (burn_timeout (seconds lr)) in
      let ci := length (ctxs st) in
      Some {| ph := PSpawn 0; ctxs := ctxs st ++ [c]; hctx := Some ci;
              tasks := tasks st; junk := junk st;
              log := log st ++ ECtx ci :: (if cdone c then [EDone ci] else []);
              resp := resp st |}
  | PSpawn i =>
      if Z.of_nat i <? workers lr then
        match hctx st with
        | Some ci =>
            Some {| ph := PSpawn (S i); ctxs := ctxs st; hctx := hctx st;
                    tasks := tasks st ++ [{| tctx := ci; tstate := TRun x0 |}];
                    junk := junk st; log := log st ++ [ESpawn i];
                    resp := resp st |}
        | None => None
        end
      else Some (set_ph st (PWait 0))
  | PWait i =>
      if Z.of_nat i <? workers lr then None   (* blocked in [<-done] *)
      else
        let r := write (header_set (resp st) "Content-Type" "application/json") ok_body in
        (* the deferred [cancel()] runs after the write *)
        let cs := match hctx st with
                  | Some ci => match ctxs st !! ci with
                               | Some c => <[ci := mark_done c]> (ctxs st)
                               | None => ctxs st
                               end
                  | None => ctxs st
                  end in
        let ev := match hctx st with
                  | Some ci => match ctxs st !! ci with
                               | Some c => if cdone c then [] else [EDone ci]
                               | None => []
                               end
                  | None => []
                  end in
        Some {| ph := PReturned; ctxs := cs; hctx := hctx st; tasks := tasks st;
                junk := junk st; log := log st ++ EResponse :: ev; resp := r |}
  | PReturned => None
  end.

(** One step of worker goroutine [k]: a pass through the [select], or
    the send on [done], which completes only together with one of the
    handler's receives (the channel is unbuffered). *)
Definition task_step (st : state) (k : nat) : option state :=
  match tasks st !! k with
  | Some t =>
      match tstate t with
      | TRun x =>
          match ctxs st !! tctx t with
          | Some c =>
              if cdone c
              then Some (set_task st k {| tctx := tctx t; tstate := TSend |} [ESeeDone k])
              else Some (set_task st k {| tctx := tctx t; tstate := TRun (burn_step x) |} [])
          | None => None
          end
      | TSend =>
          match ph st with
          | PWait i =>
              if Z.of_nat i <? workers lr
              then Some (set_ph (set_task st k {| tctx := tctx t; tstate := TDone |} [ESignal k])
                                (PWait (S i)))
              else None
          | _ => None
          end
      | TDone => None
      end
  | None => None
  end.

(** Context [c] becomes done. *)
Definition expire_step (st : state) (c : nat) : option state :=
  match ctxs st !! c with
  | Some cx =>
      if cdone cx then None
      else Some {| ph := ph st; ctxs := <[c := mark_done cx]> (ctxs st);
                   hctx := hctx st; tasks := tasks st; junk := junk st;
                   log := log st ++ [EDone c]; resp := resp st |}
  | None => None
  end.

Definition exec (st : state) (a : action) : option state :=
  match a with
  | AHandler => handler_step st
  | ATask k => task_step st k
  | AExpire c => expire_step st c
  end.

Definition step (st st' : state) : Prop := exists a, exec st a = Some st'.

Inductive reachable : state -> Prop :=
  | reach_init : reachable init_state
  | reach_step st st' : reachable st -> step st st' -> reachable st'.

(** Running a schedule. *)
Fixpoint run (st : state) (sched : list action) : option state :=
  match sched with
  | [] => Some st
  | a :: rest => st' ← exec st a; run st' rest
  end.

End Machine.

(** [BurnHandler] on a request with query [q], on a machine with [ncpu]
    processors, whose inbound context is [rc]. *)
Definition burn_reachable (q : Values) (ncpu : Z) (rc : nat) : state -> Prop :=
  reachable (resolve q ncpu) rc.

(* ------------------------------------------------------------------ *)
(** ** The list handlers (lines 56-71) *)

(** The list store behind [masterPool]; a store that is [up = false]
    answers every command with an error. *)
Record store := {
  up : bool;
  lists : gmap string (list string)
}.

(** [list.Add(value)]: [RPUSH key value]. *)
Definition list_add (s : store) (key v : string) : option store :=
  if up s
  then Some {| up := up s; lists := <[key := default [] (lists s !! key) ++ [v]]> (lists s) |}
  else None.

(** [list.GetAll()]: [LRANGE key 0 -1]. *)
Definition list_get_all (s : store) (key : string) : option (list string) :=
  if up s then Some (default [] (lists s !! key)) else None.

(** What a handler ends with: a response, or a panic raised by
    [HandleError]. *)
Inductive outcome :=
  | Panic
  | Respond (r : response).

Section ListHandlers.

(** [json.MarshalIndent(members, "", "  ")] on a [[]string]; it cannot
    fail on that type. *)
Variable marshal_indent : list string -> string.

Definition ListRangeHandler (s : store) (key : string) : outcome :=
  match list_get_all s key with
  | Some members =>
      Respond (write (header_set empty_response "Content-Type" "application/json")
                     (marshal_indent members))
  | None => Panic
  end.

(** The store after the handler, and its outcome. *)
Definition ListPushHandler (s : store) (key v : string) : store * outcome :=
  match list_add s key v with
  | Some s' => (s', ListRangeHandler s' key)
  | None => (s, Panic)
  end.

(** A client sending [GET /rpush/key/v] for each [v] of [vs] in turn:
    the store at the end and the outcome of each request. *)
Fixpoint push_all (s : store) (key : string) (vs : list string) : store * list outcome :=
  match vs with
  | [] => (s, [])
  | v :: vs =>
      let r := ListPushHandler s key v in
      let r' := push_all r.1 key vs in
      (r'.1, r.2 :: r'.2)
  end.

End ListHandlers.

(* ------------------------------------------------------------------ *)
(** ** [InfoHandler] and [HealthHandler] (lines 73-99) *)

(** [rw.WriteHeader(code)]: only the first status written counts; a
    later call is superfluous and ignored. *)
Definition write_header (r : response) (code : Z) : response :=
  match status r with
  | Some _ => r
  | None => {| status := Some code; header := header r; body := body r |}
  end.

(** [masterPool.Get(0).Do("INFO")] answers the bytes of the reply, or
    an error, which [HandleError] turns into a panic. *)
Definition InfoHandler (info : option string) : outcome :=
  match info with
  | Some i =>
      Respond (write (header_set empty_response "Content-Type" "text/plain; charset=utf-8") i)
  | None => Panic
  end.

(** [masterPool.Ping()]: [None] when it succeeds, [Some (err.Error())]
    when it fails. *)
Definition HealthHandler (ping : option string) : response :=
  match ping with
  | Some err => write (write_header empty_response 500) err
  | None => write_header empty_response 200
  end.

(* ------------------------------------------------------------------ *)
(** ** [EnvHandler] (lines 79-90) *)

(** [strings.Split(s, sep)] for a one-byte [sep]: the pieces of [s]
    between the occurrences of [sep]; [[""]] for the empty string. *)
Fixpoint Split (s : string) (sep : ascii) : list string :=
  match s with
  | EmptyString => [""]
  | String c rest =>
      let parts := Split rest sep in
      if ascii_dec c sep then "" :: parts
      else match parts with
           | p :: ps => String c p :: ps
           | [] => [String c ""]
           end
  end.

(** [strings.Join(elems, sep)] *)
Fixpoint Join (elems : list string) (sep : string) : string :=
  match elems with
  | [] => ""
  | [e] => e
  | e :: es => e +:+ sep +:+ Join es sep
  end.

(** The loop over [os.Environ()]; [splits[0]] out of range would panic
    ([None]). *)
Fixpoint env_loop (environment : gmap string string) (items : list string)
    : option (gmap string string) :=
  match items with
  | [] => Some environment
  | item :: items =>
      let splits := Split item "=" in
      match splits !! 0%nat with
      | Some key =>
          let val := Join (drop 1 splits) "=" in
          env_loop (<[key := val]> environment) items
      | None => None
      end
  end.

Section EnvHandlerSec.

(** [json.MarshalIndent(environment, "", "  ")] on a
    [map[string]string]; it cannot fail on that type. *)
Variable marshal_env : gmap string string -> string.

Definition EnvHandler (environ : list string) : outcome :=
  match env_loop ∅ environ with
  | Some environment =>
      Respond (write (header_set empty_response "Content-Type" "application/json")
                     (marshal_env environment))
  | None => Panic
  end.

End EnvHandlerSec.

(** Whether [s] contains the byte [c]. *)
Fixpoint has_char (c : ascii) (s : string) : bool :=
  match s with
  | EmptyString => false
  | String a s => if ascii_dec a c then true else has_char c s
  end.

(* ------------------------------------------------------------------ *)
(** ** The router of [main] (gorilla/mux, lines 181-188)

    A path template is a list of literal parts and [{name}] variables;
    mux compiles a variable to the regexp [[^/]+], and the whole
    template to an anchored regexp. In every template below a variable
    is followed by a literal starting with ['/'] or by the end, so the
    only way a variable can match is the longest ['/']-free prefix of
    the rest of the path, which [segment] computes. *)

Inductive tok :=
  | Lit (s : string)
  | Var (name : string).

(** The longest prefix of [s] without ['/'], and what follows it. *)
Fixpoint segment (s : string) : string * string :=
  match s with
  | EmptyString => ("", "")
  | String c rest =>
      if ascii_dec c "/" then ("", s)
      else let p := segment rest in (String c p.1, p.2)
  end.

Fixpoint strip_prefix (p s : string) : option string :=
  match p, s with
  | EmptyString, _ => Some s
  | String a p', String b s' => if ascii_dec a b then strip_prefix p' s' else None
  | _, _ => None
  end.

(** Matching a path against a template; the variables it binds, as
    [mux.Vars(req)] would give them. *)
Fixpoint match_path (t : list tok) (path : string) : option (list (string * string)) :=
  match t with
  | [] => match path with EmptyString => Some [] | _ => None end
  | Lit l :: t' => rest ← strip_prefix l path; match_path t' rest
  | Var n :: t' =>
      let p := segment path in
      if String.eqb p.1 "" then None
      else vs ← match_path t' p.2; Some ((n, p.1) :: vs)
  end.

Inductive handler_name :=
  | HListRange | HListPush | HInfo | HEnv | HHealth | HBurn | HMetrics.

(** [r.Path(template).Methods(method).HandlerFunc(h)], in order. *)
Definition routes : list (list tok * string * handler_name) :=
  [([Lit "/lrange/"; Var "key"], "GET", HListRange);
   ([Lit "/rpush/"; Var "key"; Lit "/"; Var "value"], "GET", HListPush);
   ([Lit "/info"], "GET", HInfo);
   ([Lit "/env"], "GET", HEnv);
   ([Lit "/healthz"], "GET", HHealth);
   ([Lit "/burn"], "GET", HBurn);
   ([Lit "/metrics"], "GET", HMetrics)].

Inductive match_result :=
  | Matched (h : handler_name) (vars : list (string * string))
  | MethodNotAllowed
  | NotFound
  | MovedPermanently (location : string).

(** [Router.Match]: the first route whose path and method both match;
    a route whose path matches but whose method does not is remembered
    as [ErrMethodMismatch] (a 405 response), otherwise a 404. *)
Fixpoint mux_match (rs : list (list tok * string * handler_name)) (meth path : string)
    (mismatch : bool) : match_result :=
  match rs with
  | [] => if mismatch then MethodNotAllowed else NotFound
  | (t, m, h) :: rs =>
      match match_path t path with
      | Some vs => if String.eqb m meth then Matched h vs else mux_match rs meth path true
      | None => mux_match rs meth path mismatch
      end
  end.

(** [path.Clean] on a rooted path, by the rules it documents: repeated
    slashes and [.] elements go, a [..] element removes the element
    before it, a [..] at the root is dropped, and what remains is
    ["/"] followed by the elements joined with ['/']. [kept] holds the
    elements kept so far, the last one first. *)
Fixpoint clean_elems (kept : list string) (elems : list string) : list string :=
  match elems with
  | [] => kept
  | e :: es =>
      if String.eqb e "" || String.eqb e "." then clean_elems kept es
      else if String.eqb e ".." then clean_elems (tail kept) es
      else clean_elems (e :: kept) es
  end.

Definition clean_rooted (p : string) : string :=
  "/" +:+ Join (rev (clean_elems [] (Split p "/"))) "/".

(** [p[len(p)-1] == '/'] *)
Fixpoint ends_with_slash (p : string) : bool :=
  match p with
  | EmptyString => false
  | String c EmptyString => if ascii_dec c "/" then true else false
  | String _ rest => ends_with_slash rest
  end.

(** mux's [cleanPath]: root the path, [path.Clean] it, and put back a
    trailing slash that [path.Clean] removed. *)
Definition cleanPath (p : string) : string :=
  match p with
  | EmptyString => "/"
  | String c _ =>
      let p := if ascii_dec c "/" then p else "/" +:+ p in
      let np := clean_rooted p in
      if ends_with_slash p && negb (String.eqb np "/") then np +:+ "/" else np
  end.

(** [Router.ServeHTTP] on [req.URL.Path]: a path that [cleanPath]
    changes gets a 301 answer whose [Location] is the request URL with
    the cleaned path, before any route is tried; any other path goes to
    [Router.Match], and on to the matched handler, a 405 or a 404. The
    middlewares of [negroni.Classic()] that run before the router
    (panic recovery, logging, files of [public/]) are not modelled. *)
Definition dispatch (meth path : string) : match_result :=
  let p := cleanPath path in
  if String.eqb p path then mux_match routes meth path false else MovedPermanently p.

(** [redisHost + ":6379"], [redisHost] being [os.Getenv("REDIS_HOST")]
    or ["localhost"] when that is empty. *)
Definition redis_address (redis_host_env : string) : string :=
  (if String.eqb redis_host_env "" then "localhost" else redis_host_env) +:+ ":6379".

(* ------------------------------------------------------------------ *)
(** ** Counting events *)

Fixpoint count_ev (p : event -> bool) (l : list event) : nat :=
  match l with
  | [] => O
  | e :: l => (if p e then 1 else 0) + count_ev p l
  end%nat.

Definition is_signal (e : event) : bool :=
  match e with ESignal _ => true | _ => false end.
Definition is_signal_of (k : nat) (e : event) : bool :=
  match e with ESignal k' => Nat.eqb k k' | _ => false end.
Definition is_spawn (e : event) : bool :=
  match e with ESpawn _ => true | _ => false end.
Definition is_ctx (e : event) : bool :=
  match e with ECtx _ => true | _ => false end.
Definition is_alloc (e : event) : bool :=
  match e with EAlloc _ => true | _ => false end.

Definition is_done (t : task) : bool :=
  match tstate t with TDone => true | _ => false end.

Fixpoint count_done (ts : list task) : nat :=
  match ts with
  | [] => O
  | t :: ts => (if is_done t then 1 else 0) + count_done ts
  end%nat.

(** The response [BurnHandler] builds. *)
Definition ok_response : response :=
  write (header_set empty_response "Content-Type" "application/json") ok_body.

(* ================================================================== *)
(** * Proofs *)

(** ** The compute loop *)

Definition burn_period : positive := 63253.

(** Checks [in_bounds] on [n] successive values starting at [x]. *)
Fixpoint check_orbit (n : nat) (x : float) : bool :=
  match n with
  | O => true
  | S n => if in_bounds x then check_orbit n (burn_step x) else false
  end.

Lemma check_orbit_sound n x :
  check_orbit n x = true -> forall m, (m < n)%nat -> in_bounds (Nat.iter m burn_step x) = true.
Proof.
  revert x. induction n as [|n IH]; intros x H m Hm; [lia|].
  simpl in H. destruct (in_bounds x) eqn:Hb; [|discriminate].
  destruct m as [|m]; [exact Hb|].
  rewrite Nat.iter_succ_r.
  apply IH; [exact H | lia].
Qed.

Lemma burn_period_returns : Nat.iter (Pos.to_nat burn_period) burn_step x0 = x0.
Proof. vm_compute. reflexivity. Qed.

Lemma burn_period_checked : check_orbit (Pos.to_nat burn_period) x0 = true.
Proof. vm_compute. reflexivity. Qed.

Lemma burn_iter_period_mul q :
  Nat.iter (q * Pos.to_nat burn_period) burn_step x0 = x0.
Proof.
  induction q as [|q IH]; [reflexivity|].
  rewrite Nat.mul_succ_l, Nat.add_comm, Nat.iter_add, IH.
  exact burn_period_returns.
Qed.

Lemma burn_iter_mod n :
  burn_iter n = burn_iter (n mod Pos.to_nat burn_period).
Proof.
  unfold burn_iter.
  set (P := Pos.to_nat burn_period).
  assert (HP : P <> O) by (unfold P; lia).
  pose proof (Nat.div_mod_eq n P) as Hn.
  replace (Nat.iter n burn_step x0)
    with (Nat.iter (n mod P + n / P * P) burn_step x0) by (f_equal; lia).
  rewrite Nat.iter_add, burn_iter_period_mul.
  reflexivity.
Qed.

Lemma burn_iter_in_bounds n : in_bounds (burn_iter n) = true.
Proof.
  rewrite burn_iter_mod.
  apply (check_orbit_sound _ _ burn_period_checked).
  apply Nat.mod_upper_bound. lia.
Qed.

(** ** The parameter block *)

(** The field resolution as the spec words it: a default when the field
    is absent or does not parse, then the lower clamp. *)
Definition first_value (q : Values) (key : string) : option string :=
  match q !! key with
  | Some (v :: _) => Some v
  | _ => None
  end.

Definition resolve_field (raw : option string) (dflt lo : Z) : Z :=
  let v := match raw with
           | None => dflt
           | Some s => match Atoi s with Some v => v | None => dflt end
           end in
  if v <? lo then lo else v.

Definition resolve_spec (q : Values) (ncpu : Z) : LoadRequest :=
  {| seconds := resolve_field (first_value q "seconds") 20 1;
     workers := resolve_field (first_value q "workers") ncpu 1;
     memMB := resolve_field (first_value q "mem_mb") 0 0 |}.

Lemma atoiDefault_first q key d :
  atoiDefault (Get q key) d =
  match first_value q key with
  | None => d
  | Some s => match Atoi s with Some v => v | None => d end
  end.
Proof.
  unfold atoiDefault, Get, first_value.
  destruct (q !! key) as [[|v vs]|]; reflexivity.
Qed.

Lemma resolve_bounds q ncpu :
  1 <= seconds (resolve q ncpu) /\ 1 <= workers (resolve q ncpu) /\
  0 <= memMB (resolve q ncpu).
Proof.
  unfold resolve; simpl.
  repeat match goal with |- context [if ?b then _ else _] => destruct b eqn:? end;
  repeat split; lia.
Qed.

(** ** [time.Duration(seconds)*time.Second] *)

Lemma wrap64_range z : int_min <= wrap64 z <= int_max.
Proof.
  unfold wrap64, int_min, int_max.
  pose proof (Z.mod_pos_bound z (2 ^ 64) ltac:(lia)).
  destruct (2 ^ 63 <=? z mod 2 ^ 64) eqn:E; [apply Z.leb_le in E | apply Z.leb_gt in E]; lia.
Qed.

Lemma wrap64_id z : int_min <= z <= int_max -> wrap64 z = z.
Proof.
  unfold wrap64, int_min, int_max. intros Hz.
  destruct (Z_le_gt_dec 0 z).
  - rewrite Z.mod_small by lia.
    destruct (2 ^ 63 <=? z) eqn:E; [apply Z.leb_le in E; lia | reflexivity].
  - rewrite <- (Z.mod_add z 1 (2 ^ 64)) by lia.
    rewrite Z.mod_small by lia.
    destruct (2 ^ 63 <=? z + 1 * 2 ^ 64) eqn:E; [lia | apply Z.leb_gt in E; lia].
Qed.

(** ** The memory-pressure loop *)

#[local] Opaque MiB.

Lemma touch_loop_length fuel i j b : length (touch_loop fuel i j b).1 = length b.
Proof.
  revert j b. induction fuel as [|fuel IH]; intros j b; simpl; [reflexivity|].
  destruct (Nat.ltb j (length b)); simpl; [|reflexivity].
  rewrite IH. apply length_insert.
Qed.

Lemma touch_loop_events fuel i j b :
  Forall (fun e => exists j' v, e = EWrite i j' v) (touch_loop fuel i j b).2.
Proof.
  revert j b. induction fuel as [|fuel IH]; intros j b; simpl; [constructor|].
  destruct (Nat.ltb j (length b)); simpl; [|constructor].
  constructor; [eauto | apply IH].
Qed.

Lemma touch_loop_writes fuel i j b m :
  (length b < j + fuel)%nat -> (j + m * stride < length b)%nat ->
  EWrite i (j + m * stride) (byte_of (j + m * stride)) ∈ (touch_loop fuel i j b).2.
Proof.
  revert j b m. induction fuel as [|fuel IH]; intros j b m Hf Hm; [lia|].
  simpl. destruct (Nat.ltb j (length b)) eqn:Hlt.
  2:{ apply Nat.ltb_ge in Hlt. lia. }
  simpl. destruct m as [|m].
  - rewrite Nat.mul_0_l, Nat.add_0_r. left.
  - right.
    replace (j + S m * stride)%nat with ((j + stride) + m * stride)%nat by lia.
    apply IH; rewrite length_insert; unfold stride in *; lia.
Qed.

Definition is_mem_ev (e : event) : bool :=
  match e with EAlloc _ | EWrite _ _ _ => true | _ => false end.

Lemma count_ev_app p l1 l2 : count_ev p (l1 ++ l2) = (count_ev p l1 + count_ev p l2)%nat.
Proof. induction l1 as [|e l1 IH]; simpl; [reflexivity|]. rewrite IH. lia. Qed.

Lemma touch_replicate_writes n i j :
  (j < n)%nat -> (j mod stride = 0)%nat ->
  EWrite i j (byte_of j) ∈ (touch_loop (S (length (replicate n 0))) i 0 (replicate n 0)).2.
Proof.
  intros Hj Hmod.
  pose proof (Nat.div_mod_eq j stride) as Hd. rewrite Hmod, Nat.add_0_r, Nat.mul_comm in Hd.
  assert (Hl := length_replicate n 0).
  rewrite Hd.
  replace (j / stride * stride)%nat with (0 + j / stride * stride)%nat by lia.
  apply touch_loop_writes; lia.
Qed.

Lemma alloc_block_facts size i :
  length (alloc_block size i).1 = size /\
  Forall (fun e => is_mem_ev e = true) (alloc_block size i).2 /\
  count_ev is_alloc (alloc_block size i).2 = 1%nat /\
  (forall j, (j < size)%nat -> (j mod stride = 0)%nat ->
     EWrite i j (byte_of j) ∈ (alloc_block size i).2).
Proof.
  unfold alloc_block; cbn [fst snd].
  pose proof (touch_loop_events (S (length (replicate size 0))) i 0 (replicate size 0)) as Hev.
  split; [rewrite touch_loop_length; apply length_replicate|].
  split.
  { constructor; [reflexivity|]. eapply Forall_impl; [exact Hev|].
    intros e (j' & v & ->). reflexivity. }
  split.
  { assert (Hc : forall l, Forall (fun e => exists j' v, e = EWrite i j' v) l ->
                           count_ev is_alloc l = O).
    { intros l Hl. induction Hl as [|e l (j' & v & ->) _ IHl]; simpl; auto. }
    cbn [count_ev is_alloc]. rewrite Hc by exact Hev. reflexivity. }
  intros j Hj Hmod. right. apply touch_replicate_writes; assumption.
Qed.

Lemma alloc_loop_facts size n i junk :
  length (alloc_loop size n i junk).1 = (length junk + n)%nat /\
  (Forall (fun b => length b = size) junk ->
   Forall (fun b => length b = size) (alloc_loop size n i junk).1) /\
  Forall (fun e => is_mem_ev e = true) (alloc_loop size n i junk).2 /\
  count_ev is_alloc (alloc_loop size n i junk).2 = n /\
  (forall i' j, (i <= i' < i + n)%nat -> (j < size)%nat -> (j mod stride = 0)%nat ->
     EWrite i' j (byte_of j) ∈ (alloc_loop size n i junk).2).
Proof.
  revert i junk. induction n as [|n IH]; intros i junk; cbn [alloc_loop fst snd].
  - split; [simpl; lia|]. split; [auto|]. split; [constructor|].
    split; [reflexivity|]. intros; lia.
  - destruct (alloc_block_facts size i) as (Hlen & Hmem & Hcnt & Hw).
    destruct (IH (S i) (junk ++ [(alloc_block size i).1])) as (IH1 & IH2 & IH3 & IH4 & IH5).
    repeat split.
    + rewrite IH1, length_app. simpl. lia.
    + intros Hj. apply IH2. apply Forall_app. split; [exact Hj|]. constructor; auto.
    + apply Forall_app. split; assumption.
    + rewrite count_ev_app, Hcnt, IH4. reflexivity.
    + intros i' j Hi Hj Hm. apply elem_of_app.
      destruct (Nat.eq_dec i' i) as [->|Hne].
      * left. apply Hw; assumption.
      * right. apply IH5; [lia | assumption | assumption].
Qed.

Lemma count_ev_mem p l :
  (forall e, is_mem_ev e = true -> p e = false) ->
  Forall (fun e => is_mem_ev e = true) l -> count_ev p l = O.
Proof.
  intros Hp Hl. induction Hl as [|e l He _ IH]; simpl; [reflexivity|].
  rewrite (Hp e He), IH. reflexivity.
Qed.

Lemma alloc_phase_mem k : Forall (fun e => is_mem_ev e = true) (alloc_phase k).2.
Proof. unfold alloc_phase. apply alloc_loop_facts. Qed.

(** ** Order of events in the log *)

(** The event that must already be in the log when [e] is appended:
    a signal by goroutine [k] follows its [case <-ctx.Done()], which
    follows the context (the only one, [0]) becoming done. *)
Definition required (e : event) : option event :=
  match e with
  | ESignal k => Some (ESeeDone k)
  | ESeeDone _ => Some (EDone 0)
  | _ => None
  end.

Definition ordered (l : list event) : Prop :=
  forall n e e', l !! n = Some e -> required e = Some e' -> e' ∈ take n l.

Lemma ordered_app l es :
  ordered l ->
  (forall n e e', es !! n = Some e -> required e = Some e' -> e' ∈ l ++ take n es) ->
  ordered (l ++ es).
Proof.
  intros Hl Hes n e e' Hn Hr.
  destruct (decide (n < length l)%nat) as [Hlt|Hge].
  - rewrite lookup_app_l in Hn by exact Hlt.
    rewrite take_app_le by lia. exact (Hl n e e' Hn Hr).
  - rewrite lookup_app_r in Hn by lia.
    rewrite take_app, take_ge by lia.
    exact (Hes _ _ _ Hn Hr).
Qed.

Lemma ordered_app_none l es :
  ordered l -> Forall (fun e => required e = None) es -> ordered (l ++ es).
Proof.
  intros Hl Hes. apply ordered_app; [exact Hl|].
  intros n e e' Hn Hr. rewrite Forall_lookup in Hes.
  rewrite (Hes _ _ Hn) in Hr. discriminate.
Qed.

Lemma ordered_snoc l e :
  ordered l -> (forall e', required e = Some e' -> e' ∈ l) -> ordered (l ++ [e]).
Proof.
  intros Hl He. apply ordered_app; [exact Hl|].
  intros n e0 e' Hn Hr. destruct n as [|n]; [|destruct n; discriminate].
  injection Hn as ->. rewrite app_nil_r. exact (He _ Hr).
Qed.

Lemma mem_required l :
  Forall (fun e => is_mem_ev e = true) l -> Forall (fun e => required e = None) l.
Proof.
  intros H. eapply Forall_impl; [exact H|]. intros [] He; done.
Qed.

(** ** Counting goroutines that returned *)

Lemma count_done_app ts1 ts2 :
  count_done (ts1 ++ ts2) = (count_done ts1 + count_done ts2)%nat.
Proof. induction ts1 as [|t ts1 IH]; simpl; [reflexivity|]. rewrite IH. lia. Qed.

Lemma count_done_insert ts k t t' :
  ts !! k = Some t ->
  (count_done (<[k := t']> ts) + (if is_done t then 1 else 0) =
   count_done ts + (if is_done t' then 1 else 0))%nat.
Proof.
  revert k. induction ts as [|t0 ts IH]; intros k Hk; [discriminate|].
  destruct k as [|k]; simpl in *.
  - injection Hk as ->. lia.
  - specialize (IH k Hk). lia.
Qed.

Lemma count_done_all ts :
  count_done ts = length ts -> Forall (fun t => is_done t = true) ts.
Proof.
  induction ts as [|t ts IH]; simpl; intros H; constructor.
  - destruct (is_done t); [reflexivity|].
    assert (count_done ts <= length ts)%nat; [|lia].
    clear. induction ts as [|t ts IH]; simpl; [lia|]. destruct (is_done t); lia.
  - apply IH. destruct (is_done t); [lia|].
    assert (count_done ts <= length ts)%nat; [|lia].
    clear. induction ts as [|t ts IH]; simpl; [lia|]. destruct (is_done t); lia.
Qed.

(** ** The invariant of the [/burn] machine *)

Ltac prj := cbn [ph ctxs hctx tasks junk log resp].

Section BurnInvariant.

Variable lr : LoadRequest.
Variable rc : nat.

Let W : nat := Z.to_nat (workers lr).
Let A : list event := (alloc_phase (memMB lr)).2.

Definition is_running (t : task) : bool :=
  match tstate t with TRun _ => true | _ => false end.

(** The single context, as created by the handler, is captured by
    every goroutine. *)
Definition ctx_ok (st : state) : Prop :=
  hctx st = Some 0%nat /\
  (exists c, ctxs st = [c] /\ cparent c = rc /\ ctimeout c = burn_timeout (seconds lr)) /\
  Forall (fun t => tctx t = 0%nat) (tasks st).

(** The log starts with the allocation events and the creation of the
    context, which is never repeated; one [ESpawn] per goroutine. *)
Definition log_ok (st : state) : Prop :=
  exists rest, log st = A ++ ECtx 0 :: rest /\
    count_ev is_ctx rest = O /\ count_ev is_spawn rest = length (tasks st).

Definition shape (st : state) : Prop :=
  match ph st with
  | PAlloc => st = init_state
  | PCtx => ctxs st = [] /\ hctx st = None /\ tasks st = [] /\ log st = A /\
            resp st = empty_response
  | PSpawn i => ctx_ok st /\ log_ok st /\ length (tasks st) = i /\ (i <= W)%nat /\
                resp st = empty_response
  | PWait i => ctx_ok st /\ log_ok st /\ length (tasks st) = W /\ (i <= W)%nat /\
               resp st = empty_response
  | PReturned => ctx_ok st /\ log_ok st /\ length (tasks st) = W /\
                 resp st = ok_response /\
                 (exists c, ctxs st = [c] /\ cdone c = true) /\
                 exists pre post, log st = pre ++ EResponse :: post /\
                                  count_ev is_signal post = O
  end.

(** Each goroutine has signalled once if it returned, never otherwise;
    the handler has received as many signals as its loop counter says. *)
Definition signals (st : state) : Prop :=
  (forall k t, tasks st !! k = Some t ->
     count_ev (is_signal_of k) (log st) = if is_done t then 1%nat else O) /\
  (forall k, (length (tasks st) <= k)%nat -> count_ev (is_signal_of k) (log st) = O) /\
  count_ev is_signal (log st) = count_done (tasks st) /\
  match ph st with
  | PWait i => count_ev is_signal (log st) = i
  | PReturned => count_ev is_signal (log st) = W
  | _ => count_ev is_signal (log st) = O
  end.

Record inv (st : state) : Prop := {
  inv_shape : shape st;
  inv_signals : signals st;
  inv_ordered : ordered (log st);
  inv_seen : forall k t, tasks st !! k = Some t -> is_running t = false ->
             ESeeDone k ∈ log st;
  inv_done_logged : forall c cx, ctxs st !! c = Some cx -> cdone cx = true ->
                    EDone c ∈ log st;
  inv_run_vals : forall k t x, tasks st !! k = Some t -> tstate t = TRun x ->
                 exists n, x = burn_iter n
}.

Lemma inv_init : inv init_state.
Proof.
  constructor; simpl.
  - reflexivity.
  - split; [intros k t H; discriminate|]. split; [reflexivity|].
    split; reflexivity.
  - intros n e e' H. discriminate.
  - intros k t H. discriminate.
  - intros c cx H. discriminate.
  - intros k t x H. discriminate.
Qed.

Lemma A_count p : (forall e, is_mem_ev e = true -> p e = false) -> count_ev p A = O.
Proof. intros Hp. apply count_ev_mem; [exact Hp | apply alloc_phase_mem]. Qed.

Ltac counts :=
  repeat (rewrite ?count_ev_app;
          cbn [log tasks ctxs ph count_ev is_signal is_signal_of is_ctx is_spawn]);
  rewrite ?A_count by (intros [] ?; done).

Lemma inv_handler st st' : inv st -> handler_step lr rc st = Some st' -> inv st'.
Proof.
  intros [Hsh Hsig Hord Hseen Hdl Hrv] H.
  destruct st as [p cs hc ts jk lg rp].
  unfold shape, signals, ctx_ok, log_ok in *; cbn in *.
  unfold handler_step in H; cbn in H.
  destruct p as [| |i|i|].
  - (* the memory-pressure loop *)
    injection Hsh as -> -> -> -> -> ->. injection H as <-.
    constructor; unfold shape, signals, ctx_ok, log_ok; cbn.
    + repeat split.
    + split; [intros k t Hk; discriminate|].
      split; [intros k _; counts; reflexivity|].
      counts. split; reflexivity.
    + apply (ordered_app_none []); [intros n e e' Hn; discriminate|].
      apply mem_required, alloc_phase_mem.
    + intros k t Hk; discriminate.
    + intros c cx Hc; discriminate.
    + intros k t x Hk; discriminate.
  - (* context.WithTimeout *)
    destruct Hsh as (-> & -> & -> & -> & ->). injection H as <-.
    set (d := burn_timeout (seconds lr)) in *.
    constructor; unfold shape, signals, ctx_ok, log_ok; cbn.
    + split; [split; [reflexivity|] |].
      { split; [eexists; split; [reflexivity|]; split; reflexivity | constructor]. }
      split; [|split; [reflexivity|]; split; [lia|reflexivity]].
      exists (if d <=? 0 then [EDone 0] else []).
      split; [reflexivity|]. destruct (d <=? 0); split; reflexivity.
    + split; [intros k t Hk; discriminate|].
      split; [intros k _; counts; destruct (d <=? 0); reflexivity|].
      counts. destruct (d <=? 0); split; reflexivity.
    + apply ordered_app_none.
      * apply (ordered_app_none []); [intros n e e' Hn; discriminate|].
        apply mem_required, alloc_phase_mem.
      * destruct (d <=? 0); repeat constructor.
    + intros k t Hk; discriminate.
    + intros c cx Hc Hd. destruct c as [|c]; [|destruct c; discriminate].
      injection Hc as <-. cbn in Hd. rewrite Hd.
      apply elem_of_app. right. right. left.
    + intros k t x Hk; discriminate.
  - (* the spawning loop *)
    destruct Hsh as ((Hhc & Hc & Hts) & (rest & Hlg & Hrc & Hrs) & Hlen & Hi & Hrp).
    destruct Hsig as (Hs1 & Hs2 & Hs3 & Hs4).
    destruct (Z.of_nat i <? workers lr) eqn:Hw.
    + subst hc. injection H as <-. apply Z.ltb_lt in Hw.
      constructor; unfold shape, signals, ctx_ok, log_ok; cbn.
      * split; [split; [reflexivity|]; split; [exact Hc|] |].
        { apply Forall_app. split; [exact Hts|]. repeat constructor. }
        split; [|split; [rewrite length_app; simpl; lia|]; split; [unfold W; lia|exact Hrp]].
        exists (rest ++ [ESpawn i]). split; [rewrite Hlg, <- app_assoc; reflexivity|].
        counts. rewrite length_app. simpl. lia.
      * split.
        { intros k t Hk. apply lookup_snoc_Some in Hk as [[Hk Hkt]|[Hk <-]].
          - counts. rewrite (Hs1 k t Hkt). lia.
          - counts. rewrite Hs2 by lia. reflexivity. }
        split; [intros k Hk; counts; rewrite length_app in Hk; simpl in Hk;
                rewrite Hs2 by lia; reflexivity|].
        counts. rewrite count_done_app. simpl. lia.
      * apply ordered_app_none; [exact Hord | repeat constructor].
      * intros k t Hk Hr. apply lookup_snoc_Some in Hk as [[Hk Hkt]|[Hk <-]].
        -- apply elem_of_app. left. exact (Hseen k t Hkt Hr).
        -- discriminate.
      * intros c cx Hcx Hd. apply elem_of_app. left. exact (Hdl c cx Hcx Hd).
      * intros k t x Hk Ht. apply lookup_snoc_Some in Hk as [[Hk Hkt]|[Hk <-]].
        -- exact (Hrv k t x Hkt Ht).
        -- injection Ht as <-. exists O. reflexivity.
    + subst hc. injection H as <-. apply Z.ltb_ge in Hw.
      constructor; unfold shape, signals, ctx_ok, log_ok; cbn.
      * split; [split; [reflexivity|]; split; [exact Hc|exact Hts]|].
        split; [exists rest; split; [exact Hlg|]; split; [exact Hrc|exact Hrs]|].
        split; [unfold W in *; lia|]. split; [lia|exact Hrp].
      * split; [exact Hs1|]. split; [exact Hs2|]. split; [exact Hs3|exact Hs4].
      * exact Hord.
      * exact Hseen.
      * exact Hdl.
      * exact Hrv.
  - (* the receiving loop, then the response *)
    destruct Hsh as ((Hhc & (c & Hc & Hcp & Hct) & Hts) & (rest & Hlg & Hrc & Hrs) & Hlen & Hi & Hrp).
    destruct Hsig as (Hs1 & Hs2 & Hs3 & Hs4).
    destruct (Z.of_nat i <? workers lr) eqn:Hw; [discriminate|].
    apply Z.ltb_ge in Hw.
    subst hc cs. cbn in H. injection H as <-.
    constructor; unfold shape, signals, ctx_ok, log_ok; cbn.
    + split; [split; [reflexivity|]; split; [eexists; split; [reflexivity|]; split; assumption|exact Hts]|].
      split.
      { exists (rest ++ EResponse :: (if cdone c then [] else [EDone 0])).
        split; [rewrite Hlg, <- app_assoc; reflexivity|].
        counts. destruct (cdone c); cbn; rewrite Hrc, Hrs; split; lia. }
      split; [exact Hlen|]. split; [rewrite Hrp; reflexivity|].
      split; [eexists; split; reflexivity|].
      exists lg, (if cdone c then [] else [EDone 0]). split; [reflexivity|].
      destruct (cdone c); reflexivity.
    + split.
      { intros k t Hk. counts. rewrite (Hs1 k t Hk). destruct (cdone c); cbn; lia. }
      split; [intros k Hk; counts; rewrite (Hs2 k Hk); destruct (cdone c); reflexivity|].
      counts. destruct (cdone c); cbn; (split; [lia|]); unfold W in *; lia.
    + apply ordered_app_none; [exact Hord|]. destruct (cdone c); repeat constructor.
    + intros k t Hk Hr. apply elem_of_app. left. exact (Hseen k t Hk Hr).
    + intros c' cx Hcx Hd. destruct c' as [|c']; [|destruct c'; discriminate].
      injection Hcx as <-. destruct (cdone c) eqn:Hcd.
      * apply elem_of_app. left. apply (Hdl 0%nat c); [reflexivity | exact Hcd].
      * apply elem_of_app. right. right. left.
    + exact Hrv.
  - discriminate.
Qed.

Lemma shape_tctx st k t : shape st -> tasks st !! k = Some t -> tctx t = 0%nat.
Proof.
  intros Hsh Hk. destruct st as [p cs hc ts jk lg rp].
  unfold shape, ctx_ok in Hsh; cbn in *.
  destruct p as [| |i|i|].
  - injection Hsh as _ _ -> _ _ _. discriminate.
  - destruct Hsh as (_ & _ & -> & _). discriminate.
  - destruct Hsh as ((_ & _ & Hts) & _). rewrite Forall_lookup in Hts. exact (Hts _ _ Hk).
  - destruct Hsh as ((_ & _ & Hts) & _). rewrite Forall_lookup in Hts. exact (Hts _ _ Hk).
  - destruct Hsh as ((_ & _ & Hts) & _). rewrite Forall_lookup in Hts. exact (Hts _ _ Hk).
Qed.

Lemma log_ok_task st k t' es :
  log_ok st -> count_ev is_ctx es = O -> count_ev is_spawn es = O ->
  log_ok (set_task st k t' es).
Proof.
  intros (rest & Hlg & Hrc & Hrs) Hc Hs. unfold log_ok, set_task. prj.
  exists (rest ++ es). split; [rewrite Hlg, <- app_assoc; reflexivity|].
  rewrite !count_ev_app, Hrc, Hrs, Hc, Hs, length_insert. split; lia.
Qed.

Lemma ctx_ok_task st k t t' es :
  ctx_ok st -> tasks st !! k = Some t -> tctx t' = tctx t ->
  ctx_ok (set_task st k t' es).
Proof.
  intros (Hhc & Hc & Hts) Hk Ht. unfold set_task, ctx_ok; prj.
  split; [exact Hhc|]. split; [exact Hc|].
  apply Forall_insert; [exact Hts|]. rewrite Ht.
  rewrite Forall_lookup in Hts. exact (Hts _ _ Hk).
Qed.

(** A goroutine step that does not signal keeps the shape. *)
Lemma shape_task_quiet st k t t' es :
  shape st -> tasks st !! k = Some t -> tctx t' = tctx t ->
  count_ev is_ctx es = O -> count_ev is_spawn es = O -> count_ev is_signal es = O ->
  shape (set_task st k t' es).
Proof.
  intros Hsh Hk Ht Hc Hs Hg.
  pose proof (shape_tctx st k t Hsh Hk) as Ht0.
  unfold shape in *. destruct (ph st) as [| |i|i|] eqn:Hph; unfold set_task; prj; rewrite Hph.
  - rewrite Hsh in Hk. discriminate.
  - destruct Hsh as (_ & _ & Hts & _). rewrite Hts in Hk. discriminate.
  - destruct Hsh as (Hco & Hlo & Hlen & Hi & Hrp).
    split; [apply (ctx_ok_task st k t t' es); auto|]. split; [apply log_ok_task; assumption|].
    prj. rewrite length_insert. auto.
  - destruct Hsh as (Hco & Hlo & Hlen & Hi & Hrp).
    split; [apply (ctx_ok_task st k t t' es); auto|]. split; [apply log_ok_task; assumption|].
    prj. rewrite length_insert. auto.
  - destruct Hsh as (Hco & Hlo & Hlen & Hrp & Hcd & pre & post & Hlg & Hpost).
    split; [apply (ctx_ok_task st k t t' es); auto|]. split; [apply log_ok_task; assumption|].
    prj. rewrite length_insert. split; [exact Hlen|]. split; [exact Hrp|].
    split; [exact Hcd|]. exists pre, (post ++ es).
    rewrite Hlg, <- app_assoc, count_ev_app, Hpost, Hg. split; reflexivity.
Qed.

(** ... and the signal counts. *)
Lemma signals_task_quiet st k t t' es :
  signals st -> tasks st !! k = Some t -> is_done t = false -> is_done t' = false ->
  (forall k', count_ev (is_signal_of k') es = O) -> count_ev is_signal es = O ->
  signals (set_task st k t' es).
Proof.
  intros (Hs1 & Hs2 & Hs3 & Hs4) Hk Hd Hd' Hes Hg.
  unfold signals, set_task; prj.
  assert (Hcd := count_done_insert (tasks st) k t t' Hk). rewrite Hd, Hd' in Hcd.
  split.
  { intros k' t0 Hk'. rewrite count_ev_app, Hes.
    apply list_lookup_insert_Some in Hk' as [(<- & <- & _)|(_ & Hk')].
    - rewrite (Hs1 k t Hk), Hd, Hd'. reflexivity.
    - rewrite (Hs1 k' t0 Hk'). lia. }
  split; [intros k' Hk'; rewrite length_insert in Hk'; rewrite count_ev_app, Hes, Hs2 by exact Hk'; reflexivity|].
  rewrite count_ev_app, Hg. split; [lia|].
  destruct (ph st); lia.
Qed.

Lemma inv_task st st' k : inv st -> task_step lr st k = Some st' -> inv st'.
Proof.
  intros [Hsh Hsig Hord Hseen Hdl Hrv] H.
  unfold task_step in H.
  destruct (tasks st !! k) as [t|] eqn:Hk; [|discriminate].
  pose proof (shape_tctx st k t Hsh Hk) as Ht0.
  destruct (tstate t) as [x| |] eqn:Ht.
  - destruct (ctxs st !! tctx t) as [c|] eqn:Hc; [|discriminate].
    assert (Hdt : is_done t = false) by (unfold is_done; rewrite Ht; reflexivity).
    destruct (cdone c) eqn:Hcd; injection H as <-.
    + (* [case <-ctx.Done():] *)
      constructor.
      * apply (shape_task_quiet st k t); auto.
      * apply (signals_task_quiet st k t); auto.
      * unfold set_task; prj. apply ordered_snoc; [exact Hord|].
        intros e' [= <-]. rewrite <- Ht0. exact (Hdl _ c Hc Hcd).
      * unfold set_task; prj. intros k' t0 Hk' Hr. apply elem_of_app.
        apply list_lookup_insert_Some in Hk' as [(<- & <- & _)|(_ & Hk')].
        -- right. left.
        -- left. exact (Hseen k' t0 Hk' Hr).
      * unfold set_task; prj. intros c' cx Hcx Hd. apply elem_of_app. left. exact (Hdl c' cx Hcx Hd).
      * unfold set_task; prj. intros k' t0 x' Hk' Hr.
        apply list_lookup_insert_Some in Hk' as [(<- & <- & _)|(_ & Hk')].
        -- discriminate.
        -- exact (Hrv k' t0 x' Hk' Hr).
    + (* [default:] one pass of the loop body *)
      constructor.
      * apply (shape_task_quiet st k t); auto.
      * apply (signals_task_quiet st k t); auto.
      * unfold set_task; prj. rewrite app_nil_r. exact Hord.
      * unfold set_task; prj. rewrite app_nil_r. intros k' t0 Hk' Hr.
        apply list_lookup_insert_Some in Hk' as [(<- & <- & _)|(_ & Hk')].
        -- discriminate.
        -- exact (Hseen k' t0 Hk' Hr).
      * unfold set_task; prj. rewrite app_nil_r. exact Hdl.
      * unfold set_task; prj. intros k' t0 x' Hk' Hr.
        apply list_lookup_insert_Some in Hk' as [(<- & <- & _)|(_ & Hk')].
        -- injection Hr as <-. destruct (Hrv k t x Hk Ht) as [n ->].
           exists (S n). reflexivity.
        -- exact (Hrv k' t0 x' Hk' Hr).
  - (* [done <- struct{}{}] meets [<-done] *)
    destruct (ph st) as [| |i|i|] eqn:Hph; try discriminate.
    destruct (Z.of_nat i <? workers lr) eqn:Hw; [|discriminate].
    apply Z.ltb_lt in Hw. injection H as <-.
    assert (Hdt : is_done t = false) by (unfold is_done; rewrite Ht; reflexivity).
    assert (Hkl : (k < length (tasks st))%nat) by (apply lookup_lt_is_Some; eauto).
    constructor.
    + unfold shape in *. rewrite Hph in Hsh. unfold set_ph, set_task; prj.
      destruct Hsh as (Hco & Hlo & Hlen & Hi & Hrp).
      split; [apply (ctx_ok_task st k t {| tctx := tctx t; tstate := TDone |} [ESignal k]); auto|].
      split; [apply (log_ok_task st k {| tctx := tctx t; tstate := TDone |} [ESignal k]); auto|].
      prj. rewrite length_insert. split; [exact Hlen|]. split; [unfold W in *; lia|exact Hrp].
    + destruct Hsig as (Hs1 & Hs2 & Hs3 & Hs4). rewrite Hph in Hs4.
      assert (Hcd := count_done_insert (tasks st) k t {| tctx := tctx t; tstate := TDone |} Hk).
      rewrite Hdt in Hcd. cbn in Hcd.
      unfold signals, set_ph, set_task; prj.
      split.
      { intros k' t0 Hk'. rewrite count_ev_app. cbn.
        apply list_lookup_insert_Some in Hk' as [(<- & <- & _)|(Hne & Hk')].
        - rewrite (Hs1 k t Hk), Hdt, Nat.eqb_refl. reflexivity.
        - rewrite (Hs1 k' t0 Hk'). apply Nat.eqb_neq in Hne. rewrite Nat.eqb_sym, Hne. lia. }
      split.
      { intros k' Hk'. rewrite length_insert in Hk'. rewrite count_ev_app, Hs2 by exact Hk'. cbn.
        destruct (Nat.eqb_spec k' k); [lia|reflexivity]. }
      rewrite count_ev_app. cbn. split; lia.
    + unfold set_ph, set_task; prj. apply ordered_snoc; [exact Hord|].
      intros e' [= <-]. apply (Hseen k t Hk). unfold is_running. rewrite Ht. reflexivity.
    + unfold set_ph, set_task; prj. intros k' t0 Hk' Hr. apply elem_of_app. left.
      apply list_lookup_insert_Some in Hk' as [(<- & <- & _)|(_ & Hk')].
      * apply (Hseen k t Hk). unfold is_running. rewrite Ht. reflexivity.
      * exact (Hseen k' t0 Hk' Hr).
    + unfold set_ph, set_task; prj. intros c' cx Hcx Hd. apply elem_of_app. left. exact (Hdl c' cx Hcx Hd).
    + unfold set_ph, set_task; prj. intros k' t0 x' Hk' Hr.
      apply list_lookup_insert_Some in Hk' as [(<- & <- & _)|(_ & Hk')].
      * discriminate.
      * exact (Hrv k' t0 x' Hk' Hr).
  - discriminate.
Qed.

Lemma inv_expire st st' c : inv st -> expire_step st c = Some st' -> inv st'.
Proof.
  intros [Hsh Hsig Hord Hseen Hdl Hrv] H.
  unfold expire_step in H.
  destruct (ctxs st !! c) as [cx|] eqn:Hc; [|discriminate].
  destruct (cdone cx) eqn:Hcd; [discriminate|]. injection H as <-.
  (* the only context is context 0 *)
  assert (Hctx : forall i, ctx_ok st ->
            ctx_ok {| ph := i; ctxs := <[c:=mark_done cx]> (ctxs st); hctx := hctx st;
                      tasks := tasks st; junk := junk st; log := log st ++ [EDone c];
                      resp := resp st |}).
  { intros i (Hhc & (c0 & Hc0 & Hp & Ht) & Hts). unfold ctx_ok; prj.
    split; [exact Hhc|]. split; [|exact Hts].
    rewrite Hc0 in Hc. destruct c as [|c]; [|destruct c; discriminate].
    injection Hc as <-. rewrite Hc0. eexists. split; [reflexivity|]. split; assumption. }
  assert (Hlog : forall i, log_ok st ->
            log_ok {| ph := i; ctxs := <[c:=mark_done cx]> (ctxs st); hctx := hctx st;
                      tasks := tasks st; junk := junk st; log := log st ++ [EDone c];
                      resp := resp st |}).
  { intros i (rest & Hlg & Hrc & Hrs). unfold log_ok; prj. exists (rest ++ [EDone c]).
    rewrite Hlg, <- app_assoc. split; [reflexivity|].
    rewrite !count_ev_app, Hrc, Hrs. cbn. split; lia. }
  constructor.
  - unfold shape in *. prj. destruct (ph st) as [| |i|i|].
    + rewrite Hsh in Hc. discriminate.
    + destruct Hsh as (Hcs & _). rewrite Hcs in Hc. discriminate.
    + destruct Hsh as (Hco & Hlo & Hr). split; [apply Hctx; exact Hco|].
      split; [apply Hlog; exact Hlo | exact Hr].
    + destruct Hsh as (Hco & Hlo & Hr). split; [apply Hctx; exact Hco|].
      split; [apply Hlog; exact Hlo | exact Hr].
    + destruct Hsh as (_ & _ & _ & _ & (c0 & Hc0 & Hd0) & _).
      rewrite Hc0 in Hc. destruct c as [|c]; [|destruct c; discriminate].
      injection Hc as <-. congruence.
  - destruct Hsig as (Hs1 & Hs2 & Hs3 & Hs4). unfold signals; prj.
    split; [intros k t Hk; rewrite count_ev_app, (Hs1 k t Hk); cbn; lia|].
    split; [intros k Hk; rewrite count_ev_app, (Hs2 k Hk); reflexivity|].
    rewrite count_ev_app. cbn [count_ev is_signal].
    split; [lia|]. destruct (ph st); lia.
  - prj. apply ordered_app_none; [exact Hord | repeat constructor].
  - prj. intros k t Hk Hr. apply elem_of_app. left. exact (Hseen k t Hk Hr).
  - prj. intros c' cx' Hcx' Hd. apply elem_of_app.
    apply list_lookup_insert_Some in Hcx' as [(<- & _ & _)|(_ & Hcx')].
    + right. left.
    + left. exact (Hdl c' cx' Hcx' Hd).
  - prj. exact Hrv.
Qed.

Lemma inv_step st st' : inv st -> step lr rc st st' -> inv st'.
Proof.
  intros Hinv [[|k|c] H]; cbn in H.
  - exact (inv_handler st st' Hinv H).
  - exact (inv_task st st' k Hinv H).
  - exact (inv_expire st st' c Hinv H).
Qed.

Lemma inv_reachable st : reachable lr rc st -> inv st.
Proof.
  induction 1 as [|st st' _ IH Hs].
  - exact inv_init.
  - exact (inv_step st st' IH Hs).
Qed.

End BurnInvariant.

Lemma run_reachable lr rc sched st st' :
  reachable lr rc st -> run lr rc st sched = Some st' -> reachable lr rc st'.
Proof.
  revert st. induction sched as [|a sched IH]; intros st Hst H; cbn in H.
  - injection H as <-. exact Hst.
  - destruct (exec lr rc st a) as [st1|] eqn:He; [|discriminate].
    apply (IH st1); [|exact H]. apply (reach_step _ _ st st1 Hst). exists a. exact He.
Qed.

Lemma spawn_count lr rc st :
  inv lr rc st ->
  count_ev is_spawn (log st) = length (tasks st) /\
  (length (tasks st) <= Z.to_nat (workers lr))%nat.
Proof.
  intros [Hsh _ _ _ _ _]. unfold shape, log_ok in Hsh.
  assert (HA := A_count lr is_spawn ltac:(intros [] ?; done)).
  destruct (ph st).
  - subst st. cbn. split; [reflexivity | lia].
  - destruct Hsh as (_ & _ & -> & -> & _). split; [exact HA | cbn; lia].
  - destruct Hsh as (_ & (rest & -> & _ & Hrs) & Hl & Hi & _).
    rewrite count_ev_app, HA. cbn. split; lia.
  - destruct Hsh as (_ & (rest & -> & _ & Hrs) & Hl & _).
    rewrite count_ev_app, HA. cbn. split; lia.
  - destruct Hsh as (_ & (rest & -> & _ & Hrs) & Hl & _).
    rewrite count_ev_app, HA. cbn. split; lia.
Qed.

Lemma lookup_before (l : list event) e n :
  e ∈ take n l -> exists m, (m < n)%nat /\ l !! m = Some e.
Proof. intros H. apply elem_of_take in H as (m & Hm & Hlt). eauto. Qed.

(** ** A schedule of a concrete request *)

Definition demo_query : Values :=
  <["seconds" := ["1"]]> (<["workers" := ["2"]]> ∅).

(** Allocation (nothing to allocate), the context, two spawns, the loop
    exit, one pass of each goroutine, the deadline, both goroutines
    observe it and signal, and the response. *)
Definition demo_sched : list action :=
  [AHandler; AHandler; AHandler; AHandler; AHandler;
   ATask 0; ATask 1; AExpire 0; ATask 0; ATask 1; ATask 0; ATask 1; AHandler].

Definition demo_state : state :=
  default init_state (run (resolve demo_query 4) 0 init_state demo_sched).

Lemma demo_reachable : burn_reachable demo_query 4 0 demo_state.
Proof.
  apply (run_reachable _ _ demo_sched init_state); [constructor|].
  vm_compute. reflexivity.
Qed.

Lemma demo_returned : ph demo_state = PReturned.
Proof. vm_compute. reflexivity. Qed.

(** Once the context exists (every phase from [PSpawn] on), it is the
    only one and the log has the shape [log_ok]. *)
Lemma shape_cases lr rc st :
  shape lr rc st ->
  (st = init_state) \/
  (ph st = PCtx /\ ctxs st = [] /\ tasks st = [] /\ log st = (alloc_phase (memMB lr)).2) \/
  (ctx_ok lr rc st /\ log_ok lr st).
Proof.
  unfold shape. destruct (ph st) eqn:Hph.
  - left. assumption.
  - intros (? & _ & ? & ? & _). right. left. auto.
  - intros (? & ? & _). right. right. auto.
  - intros (? & ? & _). right. right. auto.
  - intros (? & ? & _). right. right. auto.
Qed.

(** ** C1 *)

(** C1: the handler spawns at most [workers] goroutines, one
    [ESpawn] each; when it has returned it spawned exactly [workers],
    received exactly [workers] completion signals before writing the
    response (none after), and every goroutine has returned. *)
Theorem burn_spawns_match_signals (q : Values) (ncpu : Z) (rc : nat) (st : state) :
  burn_reachable q ncpu rc st ->
  count_ev is_spawn (log st) = length (tasks st) /\
  Z.of_nat (length (tasks st)) <= workers (resolve q ncpu) /\
  (ph st = PReturned ->
     Z.of_nat (length (tasks st)) = workers (resolve q ncpu) /\
     Z.of_nat (count_ev is_signal (log st)) = workers (resolve q ncpu) /\
     Forall (fun t => is_done t = true) (tasks st) /\
     exists pre post, log st = pre ++ EResponse :: post /\
       Z.of_nat (count_ev is_signal pre) = workers (resolve q ncpu) /\
       count_ev is_signal post = O).
Proof.
  intros Hr. pose proof (inv_reachable _ _ _ Hr) as Hinv.
  destruct (spawn_count _ _ _ Hinv) as [Hsp Hle].
  destruct (resolve_bounds q ncpu) as (_ & Hw & _).
  split; [exact Hsp|]. split; [lia|].
  intros Hph. destruct Hinv as [Hsh Hsig _ _ _ _].
  unfold shape, signals in *. rewrite Hph in Hsh, Hsig.
  destruct Hsh as (_ & _ & Hlen & _ & _ & pre & post & Hlg & Hpost).
  destruct Hsig as (_ & _ & Hs3 & Hs4).
  split; [lia|]. split; [lia|].
  split; [apply count_done_all; lia|].
  exists pre, post. split; [exact Hlg|]. split; [|exact Hpost].
  rewrite Hlg, count_ev_app in Hs4. cbn [count_ev is_signal] in Hs4. lia.
Qed.

Lemma burn_spawns_match_signals_witness :
  burn_reachable demo_query 4 0 demo_state /\
  count_ev is_spawn (log demo_state) = length (tasks demo_state) /\
  Z.of_nat (length (tasks demo_state)) <= workers (resolve demo_query 4) /\
  (ph demo_state = PReturned ->
     Z.of_nat (length (tasks demo_state)) = workers (resolve demo_query 4) /\
     Z.of_nat (count_ev is_signal (log demo_state)) = workers (resolve demo_query 4) /\
     Forall (fun t => is_done t = true) (tasks demo_state) /\
     exists pre post, log demo_state = pre ++ EResponse :: post /\
       Z.of_nat (count_ev is_signal pre) = workers (resolve demo_query 4) /\
       count_ev is_signal post = O).
Proof.
  split; [exact demo_reachable|].
  apply (burn_spawns_match_signals demo_query 4 0 demo_state demo_reachable).
Defined.

(** ** C4 *)

(** C4: whatever the query, a [/burn] request whose handler has
    returned has written status 200, the single header
    [Content-Type: application/json] and the body [{"ok":true}]. *)
Theorem burn_response_ok (q : Values) (ncpu : Z) (rc : nat) (st : state) :
  burn_reachable q ncpu rc st -> ph st = PReturned ->
  status (resp st) = Some 200 /\
  header (resp st) = [("Content-Type", "application/json")] /\
  body (resp st) = ok_body.
Proof.
  intros Hr Hph. destruct (inv_reachable _ _ _ Hr) as [Hsh _ _ _ _ _].
  unfold shape in Hsh. rewrite Hph in Hsh.
  destruct Hsh as (_ & _ & _ & -> & _).
  repeat split.
Qed.

Lemma burn_response_ok_witness :
  burn_reachable demo_query 4 0 demo_state /\ ph demo_state = PReturned /\
  status (resp demo_state) = Some 200 /\
  header (resp demo_state) = [("Content-Type", "application/json")] /\
  body (resp demo_state) = ok_body.
Proof.
  split; [exact demo_reachable|]. split; [exact demo_returned|].
  apply (burn_response_ok demo_query 4 0 demo_state demo_reachable demo_returned).
Defined.

(** ** C5 *)

(** C5: for every goroutine [k] of a reachable state: while it runs,
    its [select] never blocks (it takes the [default:] branch when the
    context is not done and the [ctx.Done()] branch when it is); it has
    sent exactly one completion signal if it has returned and none
    otherwise; each of its signals comes after it observed the context
    done, which comes after the context it captured became done; its
    send is the step that returns; a returned goroutine takes no step. *)
Theorem worker_signals_once_after_deadline (q : Values) (ncpu : Z) (rc : nat)
    (st : state) (k : nat) (t : task) :
  burn_reachable q ncpu rc st -> tasks st !! k = Some t ->
  (forall x, tstate t = TRun x ->
     exists c, ctxs st !! tctx t = Some c /\
       (cdone c = false ->
          task_step (resolve q ncpu) st k =
          Some (set_task st k {| tctx := tctx t; tstate := TRun (burn_step x) |} [])) /\
       (cdone c = true ->
          task_step (resolve q ncpu) st k =
          Some (set_task st k {| tctx := tctx t; tstate := TSend |} [ESeeDone k]))) /\
  count_ev (is_signal_of k) (log st) = (if is_done t then 1%nat else O) /\
  (forall n, log st !! n = Some (ESignal k) ->
     exists m1 m2, (m2 < m1 < n)%nat /\ log st !! m1 = Some (ESeeDone k) /\
                   log st !! m2 = Some (EDone (tctx t))) /\
  (tstate t = TSend -> forall st', task_step (resolve q ncpu) st k = Some st' ->
     tasks st' !! k = Some {| tctx := tctx t; tstate := TDone |} /\
     log st' = log st ++ [ESignal k]) /\
  (tstate t = TDone -> task_step (resolve q ncpu) st k = None).
Proof.
  intros Hr Hk. pose proof (inv_reachable _ _ _ Hr) as Hinv.
  destruct Hinv as [Hsh Hsig Hord Hseen Hdl Hrv].
  pose proof (shape_tctx _ _ st k t Hsh Hk) as Ht0.
  split.
  { intros x Hx.
    destruct (shape_cases _ _ _ Hsh) as [->|[(_ & _ & Hts & _)|((_ & (c & Hc & _) & _) & _)]].
    - discriminate.
    - rewrite Hts in Hk. discriminate.
    - exists c. rewrite Ht0, Hc. split; [reflexivity|].
      unfold task_step. rewrite Hk, Hx, Ht0, Hc. cbn.
      split; intros ->; reflexivity. }
  split; [destruct Hsig as (Hs1 & _); exact (Hs1 k t Hk)|].
  split.
  { intros n Hn.
    destruct (lookup_before _ _ _ (Hord n _ _ Hn eq_refl)) as (m1 & Hm1 & Hl1).
    destruct (lookup_before _ _ _ (Hord m1 _ _ Hl1 eq_refl)) as (m2 & Hm2 & Hl2).
    exists m1, m2. rewrite Ht0. auto. }
  split.
  { intros Ht st' Hs. unfold task_step in Hs. rewrite Hk, Ht in Hs.
    destruct (ph st); try discriminate.
    destruct (Z.of_nat i <? workers (resolve q ncpu)); [|discriminate].
    injection Hs as <-. unfold set_ph, set_task; prj.
    split; [|reflexivity].
    apply list_lookup_insert_eq. apply lookup_lt_is_Some. eauto. }
  intros Ht. unfold task_step. rewrite Hk, Ht. reflexivity.
Qed.

Lemma demo_task0 : tasks demo_state !! 0%nat = Some {| tctx := 0; tstate := TDone |}.
Proof. vm_compute. reflexivity. Qed.

Lemma worker_signals_once_after_deadline_witness :
  burn_reachable demo_query 4 0 demo_state /\
  count_ev (is_signal_of 0) (log demo_state) = 1%nat.
Proof.
  split; [exact demo_reachable|].
  destruct (worker_signals_once_after_deadline demo_query 4 0 demo_state 0
              {| tctx := 0; tstate := TDone |} demo_reachable demo_task0)
    as (_ & Hc & _).
  exact Hc.
Defined.

(** ** C6 *)

(** C6: [BurnHandler] creates at most one context; once a goroutine
    exists, that context is the handler's [ctx], it is
    [context.WithTimeout(r.Context(), time.Duration(seconds)*time.Second)],
    it was created before the first [go] statement, and every goroutine
    captured it (each goroutine's [select] reads the [Done] state of the
    context it captured). *)
Theorem single_shared_deadline (q : Values) (ncpu : Z) (rc : nat) (st : state) :
  burn_reachable q ncpu rc st ->
  (count_ev is_ctx (log st) <= 1)%nat /\ (length (ctxs st) <= 1)%nat /\
  (tasks st <> [] ->
     hctx st = Some 0%nat /\
     exists c, ctxs st = [c] /\ cparent c = rc /\
       ctimeout c = burn_timeout (seconds (resolve q ncpu)) /\
       Forall (fun t => tctx t = 0%nat) (tasks st) /\
       exists pre post, log st = pre ++ ECtx 0 :: post /\ count_ev is_spawn pre = O).
Proof.
  intros Hr. destruct (inv_reachable _ _ _ Hr) as [Hsh _ _ _ _ _].
  assert (HAc := A_count (resolve q ncpu) is_ctx ltac:(intros [] ?; done)).
  assert (HAs := A_count (resolve q ncpu) is_spawn ltac:(intros [] ?; done)).
  destruct (shape_cases _ _ _ Hsh)
    as [->|[(_ & Hcs & Hts & Hlg)|((Hhc & (c & Hc & Hp & Ht) & Hts) & (rest & Hlg & Hrc & _))]].
  - cbn. split; [lia|]. split; [lia|]. intros []; reflexivity.
  - rewrite Hcs, Hts, Hlg, HAc. cbn. split; [lia|]. split; [lia|]. intros []; reflexivity.
  - rewrite Hc, Hlg, count_ev_app, HAc. cbn [count_ev is_ctx length].
    split; [lia|]. split; [lia|]. intros _.
    split; [exact Hhc|]. exists c. split; [reflexivity|]. split; [exact Hp|].
    split; [exact Ht|]. split; [exact Hts|].
    exists (alloc_phase (memMB (resolve q ncpu))).2, rest. split; [reflexivity|exact HAs].
Qed.

Lemma single_shared_deadline_witness :
  burn_reachable demo_query 4 0 demo_state /\
  (count_ev is_ctx (log demo_state) <= 1)%nat.
Proof.
  split; [exact demo_reachable|].
  apply (single_shared_deadline demo_query 4 0 demo_state demo_reachable).
Defined.

(** ** C2 *)

Example Atoi_plain : Atoi "42" = Some 42.
Proof. reflexivity. Qed.
Example Atoi_neg : Atoi "-5" = Some (-5).
Proof. reflexivity. Qed.
Example Atoi_empty : Atoi "" = None.
Proof. reflexivity. Qed.
Example Atoi_sign_only : Atoi "+" = None.
Proof. reflexivity. Qed.
Example Atoi_junk : Atoi "1x" = None.
Proof. reflexivity. Qed.
Example Atoi_range : Atoi "9223372036854775808" = None.
Proof. reflexivity. Qed.

(** C2: the parameter block of [BurnHandler] is the function [resolve]
    of the query (and of [runtime.NumCPU()]), and it equals the
    field-by-field resolution: [seconds] is 20 when absent or
    unparseable, else the parsed value, raised to 1 when below 1;
    [workers] likewise with default [NumCPU()] and floor 1; [memMB]
    with default 0 and floor 0. *)
Theorem resolve_matches_spec (q : Values) (ncpu : Z) :
  resolve q ncpu = resolve_spec q ncpu.
Proof.
  unfold resolve, resolve_spec, resolve_field.
  rewrite !atoiDefault_first. reflexivity.
Qed.

(** ** C3 *)

(** C3: for the resolved [memMB = k] (always [k >= 0]), the allocation
    loop produces exactly [k] blocks of [MiB = 1024*1024] bytes, one
    allocation each, writes offset [j] of block [i] for every [i < k] and
    every [j < MiB] that is a multiple of [stride = 4096], and all these
    events are in the log before any goroutine is spawned. *)
Theorem memory_pressure_before_workers (q : Values) (ncpu : Z) (rc : nat) :
  let k := memMB (resolve q ncpu) in
  0 <= k /\
  Z.of_nat (length (alloc_phase k).1) = k /\
  Forall (fun b => length b = MiB) (alloc_phase k).1 /\
  Z.of_nat (count_ev is_alloc (alloc_phase k).2) = k /\
  (forall i j, (i < Z.to_nat k)%nat -> (j < MiB)%nat -> (j mod stride = 0)%nat ->
     EWrite i j (byte_of j) ∈ (alloc_phase k).2) /\
  (forall st, burn_reachable q ncpu rc st ->
     forall m, ESpawn m ∈ log st ->
       exists rest, log st = (alloc_phase k).2 ++ rest /\ ESpawn m ∈ rest).
Proof.
  intros k. subst k.
  destruct (resolve_bounds q ncpu) as (_ & _ & Hk).
  remember (memMB (resolve q ncpu)) as k eqn:Hkeq.
  destruct (alloc_loop_facts MiB (Z.to_nat k) 0 []) as (H1 & H2 & H3 & H4 & H5).
  change (alloc_loop MiB (Z.to_nat k) 0 []) with (alloc_phase k) in H1, H2, H3, H4, H5.
  split; [exact Hk|].
  split; [rewrite H1; cbn [length]; lia|].
  split; [apply H2; constructor|].
  split; [rewrite H4; lia|].
  split; [intros i j Hi Hj Hm; apply H5; [lia|assumption|assumption]|].
  intros st Hr m Hm.
  assert (HnA : ESpawn m ∉ (alloc_phase k).2).
  { intros Hin. rewrite Forall_forall in H3. specialize (H3 _ Hin). discriminate. }
  destruct (inv_reachable _ _ _ Hr) as [Hsh _ _ _ _ _].
  destruct (shape_cases _ _ _ Hsh)
    as [->|[(_ & _ & _ & Hlg)|(_ & (rest & Hlg & _))]].
  - cbn in Hm. apply not_elem_of_nil in Hm. contradiction.
  - rewrite Hlg, <- Hkeq in Hm. contradiction.
  - rewrite Hlg, <- Hkeq in Hm |- *.
    exists (ECtx 0 :: rest). split; [reflexivity|].
    apply elem_of_app in Hm as [Hm|Hm]; [contradiction|exact Hm].
Qed.

(** A request with [mem_mb=1] and one worker: the allocation, the
    context, the spawn of goroutine 0. *)
Definition mem_query : Values :=
  <["mem_mb" := ["1"]]> (<["workers" := ["1"]]> (<["seconds" := ["1"]]> ∅)).

Lemma mem_query_memMB : memMB (resolve mem_query 4) = 1.
Proof. vm_compute. reflexivity. Qed.

Lemma mem_query_spawn :
  exists st, burn_reachable mem_query 4 0 st /\ ESpawn 0 ∈ log st.
Proof.
  eexists. split.
  - eapply reach_step; [eapply reach_step; [eapply reach_step; [apply reach_init|]|]|].
    + exists AHandler. reflexivity.
    + exists AHandler. reflexivity.
    + exists AHandler. reflexivity.
  - cbn [log]. apply elem_of_app. right. left.
Qed.

Lemma memory_pressure_before_workers_witness :
  memMB (resolve mem_query 4) = 1 /\
  Z.of_nat (count_ev is_alloc (alloc_phase (memMB (resolve mem_query 4))).2) = 1 /\
  exists st, burn_reachable mem_query 4 0 st /\ ESpawn 0 ∈ log st /\
    exists rest, log st = (alloc_phase (memMB (resolve mem_query 4))).2 ++ rest /\
                 ESpawn 0 ∈ rest.
Proof.
  destruct (memory_pressure_before_workers mem_query 4 0) as (_ & _ & _ & Hc & _ & H).
  split; [exact mem_query_memMB|]. split; [rewrite Hc; exact mem_query_memMB|].
  destruct mem_query_spawn as (st & Hr & Hs).
  exists st. split; [exact Hr|]. split; [exact Hs|]. exact (H st Hr 0%nat Hs).
Defined.

(** ** C7 *)

Definition demo_sched_running : list action :=
  [AHandler; AHandler; AHandler; AHandler; AHandler; ATask 0; ATask 1].

Definition demo_running : state :=
  default init_state (run (resolve demo_query 4) 0 init_state demo_sched_running).

Lemma demo_running_reachable : burn_reachable demo_query 4 0 demo_running.
Proof.
  apply (run_reachable _ _ demo_sched_running init_state); [constructor|].
  vm_compute. reflexivity.
Qed.

Lemma demo_running_task0 :
  tasks demo_running !! 0%nat = Some {| tctx := 0; tstate := TRun (burn_step x0) |}.
Proof. vm_compute. reflexivity. Qed.

(** C7: the value [x] of a goroutine starts at [0.0001]; each pass sets
    it to [x + sqrt x], or back to [0.0001] when that exceeds [1e9];
    every value it takes lies in [(0, 1e9]] (IEEE-754 binary64); the
    sequence returns to [0.0001] after [burn_period] passes; and the [x]
    of every running goroutine of a reachable state is such a value. *)
Theorem burn_loop_bounded :
  burn_iter 0 = x0 /\
  (forall n, burn_iter (S n) =
     (let y := (burn_iter n + sqrt (burn_iter n))%float in
      if (1e9 <? y)%float then x0 else y)) /\
  (forall n, in_bounds (burn_iter n) = true) /\
  burn_iter (Pos.to_nat burn_period) = x0 /\
  (forall q ncpu rc st k t x,
     burn_reachable q ncpu rc st -> tasks st !! k = Some t -> tstate t = TRun x ->
     exists n, x = burn_iter n /\ in_bounds x = true).
Proof.
  split; [reflexivity|].
  split; [intros n; reflexivity|].
  split; [exact burn_iter_in_bounds|].
  split; [exact burn_period_returns|].
  intros q ncpu rc st k t x Hr Hk Ht.
  destruct (inv_reachable _ _ _ Hr) as [_ _ _ _ _ Hrv].
  destruct (Hrv k t x Hk Ht) as [n ->]. exists n.
  split; [reflexivity | apply burn_iter_in_bounds].
Qed.

Lemma burn_loop_bounded_witness :
  burn_reachable demo_query 4 0 demo_running /\
  exists n, burn_step x0 = burn_iter n /\ in_bounds (burn_step x0) = true.
Proof.
  split; [exact demo_running_reachable|].
  destruct burn_loop_bounded as (_ & _ & _ & _ & H).
  exact (H demo_query 4 0%nat demo_running 0%nat _ (burn_step x0)
           demo_running_reachable demo_running_task0 eq_refl).
Defined.

(** ** C8 *)

Definition query_clamped : Values :=
  <["seconds" := ["-5"]]> (<["workers" := ["0"]]> (<["mem_mb" := ["-3"]]> ∅)).

Definition query_min : Values :=
  <["seconds" := ["1"]]> (<["workers" := ["1"]]> (<["mem_mb" := ["0"]]> ∅)).

(** C8: [seconds=-5&workers=0&mem_mb=-3] and [seconds=1&workers=1&mem_mb=0]
    resolve to the same [LoadRequest] [(1, 1, 0)] on any machine, so the
    two requests have the same executions of the handler. *)
Theorem clamped_query_equivalent (ncpu : Z) (rc : nat) :
  resolve query_clamped ncpu = {| seconds := 1; workers := 1; memMB := 0 |} /\
  resolve query_min ncpu = {| seconds := 1; workers := 1; memMB := 0 |} /\
  (forall st, burn_reachable query_clamped ncpu rc st <-> burn_reachable query_min ncpu rc st).
Proof.
  assert (H1 : resolve query_clamped ncpu = {| seconds := 1; workers := 1; memMB := 0 |})
    by reflexivity.
  assert (H2 : resolve query_min ncpu = {| seconds := 1; workers := 1; memMB := 0 |})
    by reflexivity.
  split; [exact H1|]. split; [exact H2|].
  intros st. unfold burn_reachable. rewrite H1, H2. reflexivity.
Qed.

(** ** C9 *)

Definition query_huge : Values := <["seconds" := ["9223372037"]]> ∅.

(** C9: [time.Duration(seconds)*time.Second] is the 64-bit wrapped
    product: exact for [seconds <= 9223372036], different from
    [seconds * 10^9] for every [int] above it; at [seconds = 9223372037]
    it is negative, the context is created already done, and a request
    with [seconds=9223372037] gets that context. *)
Theorem burn_timeout_overflow :
  (forall s, 1 <= s <= 9223372036 -> burn_timeout s = s * Second) /\
  (forall s, 9223372036 < s <= int_max -> burn_timeout s <> s * Second) /\
  burn_timeout 9223372037 = -9223372036709551616 /\
  seconds (resolve query_huge 1) = 9223372037 /\
  exists st, run (resolve query_huge 1) 0 init_state [AHandler; AHandler] = Some st /\
             ctxs st = [with_timeout 0 (burn_timeout 9223372037)] /\
             cdone (with_timeout 0 (burn_timeout 9223372037)) = true.
Proof.
  split.
  { intros s Hs. unfold burn_timeout, Second. apply wrap64_id.
    unfold int_min, int_max. lia. }
  split.
  { intros s Hs Heq. pose proof (wrap64_range (s * Second)) as Hr.
    unfold burn_timeout in Heq. rewrite Heq in Hr.
    unfold int_max, Second in *. lia. }
  split; [reflexivity|].
  split; [reflexivity|].
  eexists. split; [vm_compute; reflexivity|]. split; reflexivity.
Qed.

Lemma burn_timeout_overflow_witness :
  9223372036 < 9223372037 <= int_max /\ burn_timeout 9223372037 <> 9223372037 * Second.
Proof.
  assert (Hs : 9223372036 < 9223372037 <= int_max) by (unfold int_max; lia).
  split; [exact Hs|].
  destruct burn_timeout_overflow as (_ & H & _).
  exact (H 9223372037 Hs).
Defined.

(** ** C10 *)

(** C10: when the append succeeds, [ListPushHandler] leaves the store
    with the value appended and responds exactly as [ListRangeHandler]
    does on that store: [Content-Type: application/json] and the
    indented JSON of all the members, the new value last. *)
Theorem push_responds_like_range (marshal_indent : list string -> string)
    (s : store) (key v : string) (s' : store) :
  list_add s key v = Some s' ->
  ListPushHandler marshal_indent s key v = (s', ListRangeHandler marshal_indent s' key) /\
  lists s' !! key = Some (default [] (lists s !! key) ++ [v]) /\
  ListRangeHandler marshal_indent s' key =
    Respond {| status := Some 200;
               header := [("Content-Type", "application/json")];
               body := marshal_indent (default [] (lists s !! key) ++ [v]) |}.
Proof.
  intros Hadd. unfold ListPushHandler. rewrite Hadd.
  unfold list_add in Hadd. destruct (up s) eqn:Hup; [|discriminate].
  injection Hadd as <-.
  split; [reflexivity|].
  cbn. rewrite lookup_insert_eq.
  split; [reflexivity|].
  reflexivity.
Qed.

Definition demo_store : store := {| up := true; lists := <["guests" := ["ann"]]> ∅ |}.

Lemma push_responds_like_range_witness :
  exists s', list_add demo_store "guests" "bob" = Some s' /\
    ListPushHandler (String.concat ",") demo_store "guests" "bob" =
      (s', ListRangeHandler (String.concat ",") s' "guests").
Proof.
  eexists. split; [reflexivity|].
  apply (push_responds_like_range (String.concat ",") demo_store "guests" "bob"); reflexivity.
Defined.

(* ================================================================== *)
(** * Further properties of the handlers *)

(** ** [strings.Split] and [strings.Join] *)

Lemma Split_cons s c : exists p ps, Split s c = p :: ps.
Proof.
  induction s as [|a s IH]; cbn.
  - eauto.
  - destruct IH as (p & ps & ->). destruct (ascii_dec a c); eauto.
Qed.

Lemma Join_String a p ps sep :
  Join (String a p :: ps) sep = String a (Join (p :: ps) sep).
Proof. destruct ps; reflexivity. Qed.

Lemma Split_no_sep s c : has_char c s = false -> Split s c = [s].
Proof.
  induction s as [|a s IH]; cbn; [reflexivity|].
  destruct (ascii_dec a c); [discriminate|]. intros H. rewrite (IH H). reflexivity.
Qed.

Lemma str_app_nil_l s : "" +:+ s = s.
Proof. reflexivity. Qed.

Lemma str_app_String a s t : String a s +:+ t = String a (s +:+ t).
Proof. reflexivity. Qed.

Lemma Split_first k v c :
  has_char c k = false -> Split (k +:+ String c v) c = k :: Split v c.
Proof.
  induction k as [|a k IH].
  - intros _. rewrite str_app_nil_l. cbn. destruct (ascii_dec c c); [reflexivity | congruence].
  - cbn [has_char]. destruct (ascii_dec a c); [discriminate|]. intros H.
    rewrite str_app_String. cbn [Split]. rewrite (IH H).
    destruct (ascii_dec a c); [contradiction | reflexivity].
Qed.

Lemma env_loop_app m l1 l2 :
  env_loop m (l1 ++ l2) = (m' ← env_loop m l1; env_loop m' l2).
Proof.
  revert m. induction l1 as [|item l1 IH]; intros m; cbn; [reflexivity|].
  destruct (Split_cons item "=") as (p & ps & ->). cbn. apply IH.
Qed.

Lemma env_loop_total m l : exists m', env_loop m l = Some m'.
Proof.
  revert m. induction l as [|item l IH]; intros m; cbn; [eauto|].
  destruct (Split_cons item "=") as (p & ps & ->). cbn. apply IH.
Qed.

(** [strings.Split] with a one-byte separator never returns an empty
    slice (so [splits[0]] in [EnvHandler] is always in range), and
    joining its pieces with the separator gives the string back. *)
Theorem Split_Join_roundtrip (s : string) (c : ascii) :
  Split s c <> [] /\ Join (Split s c) (String c EmptyString) = s.
Proof.
  split.
  { destruct (Split_cons s c) as (p & ps & ->). discriminate. }
  induction s as [|a s IH]; [reflexivity|].
  cbn [Split]. destruct (Split_cons s c) as (p & ps & Hs). rewrite Hs in IH |- *.
  destruct (ascii_dec a c) as [->|].
  - change (Join ("" :: p :: ps) (String c "")) with ("" +:+ String c "" +:+ Join (p :: ps) (String c "")).
    rewrite IH, str_app_nil_l, str_app_String, str_app_nil_l. reflexivity.
  - rewrite Join_String, IH. reflexivity.
Qed.

(** [EnvHandler] never panics, whatever the environment: it answers
    [200] with [Content-Type: application/json] and the JSON of the map
    it builds. In that map an item [k=v] whose key [k] has no ['='] sets
    [k] to [v] (further ['='] stay in the value), an item without ['=']
    sets itself to [""], and a later item overrides an earlier one. *)
Theorem EnvHandler_env_map (marshal_env : gmap string string -> string)
    (environ : list string) :
  exists env,
    env_loop ∅ environ = Some env /\
    EnvHandler marshal_env environ =
      Respond {| status := Some 200;
                 header := [("Content-Type", "application/json")];
                 body := marshal_env env |} /\
    (forall k v, has_char "=" k = false ->
       env_loop ∅ (environ ++ [k +:+ "=" +:+ v]) = Some (<[k := v]> env)) /\
    (forall item, has_char "=" item = false ->
       env_loop ∅ (environ ++ [item]) = Some (<[item := ""]> env)).
Proof.
  destruct (env_loop_total ∅ environ) as (env & Henv).
  exists env. split; [exact Henv|]. split.
  { unfold EnvHandler. rewrite Henv. reflexivity. }
  split.
  - intros k v Hk. rewrite env_loop_app, Henv. cbn.
    change ("=" +:+ v) with (String "=" v). rewrite (Split_first k v "=" Hk). cbn.
    rewrite drop_0. destruct (Split_Join_roundtrip v "=") as [_ Hj]. rewrite Hj. reflexivity.
  - intros item Hi. rewrite env_loop_app, Henv. cbn.
    rewrite (Split_no_sep item "=" Hi). reflexivity.
Qed.

Lemma EnvHandler_env_map_witness :
  exists env,
    env_loop ∅ ["HOME=/root"] = Some env /\
    EnvHandler (fun _ => "") ["HOME=/root"] =
      Respond {| status := Some 200;
                 header := [("Content-Type", "application/json")];
                 body := "" |} /\
    env_loop ∅ (["HOME=/root"] ++ ["OPTS" +:+ "=" +:+ "a=b"]) = Some (<["OPTS" := "a=b"]> env).
Proof.
  destruct (EnvHandler_env_map (fun _ => "") ["HOME=/root"]) as (env & H1 & H2 & H3 & _).
  exists env. split; [exact H1|]. split; [exact H2|].
  apply H3. reflexivity.
Defined.

(** ** The list handlers *)

(** Successive pushes on a store that is up append the values in
    order; the [i]-th request answers the JSON of the list as it stands
    after its own value, and the other lists are untouched. *)
Theorem push_all_appends (marshal_indent : list string -> string)
    (s : store) (key : string) (vs : list string) :
  up s = true ->
  let r := push_all marshal_indent s key vs in
  up r.1 = true /\
  default [] (lists r.1 !! key) = default [] (lists s !! key) ++ vs /\
  (forall k', k' <> key -> lists r.1 !! k' = lists s !! k') /\
  length r.2 = length vs /\
  (forall i, (i < length vs)%nat ->
     r.2 !! i = Some (Respond {| status := Some 200;
                                 header := [("Content-Type", "application/json")];
                                 body := marshal_indent (default [] (lists s !! key) ++ take (S i) vs) |})).
Proof.
  revert s. induction vs as [|v vs IH]; intros s Hup r; subst r.
  - cbn. rewrite app_nil_r. split; [exact Hup|]. split.
    + reflexivity.
    + split; [reflexivity|]. split; [reflexivity|]. intros i Hi. cbn in Hi. lia.
  - set (s1 := {| up := true; lists := <[key := default [] (lists s !! key) ++ [v]]> (lists s) |}).
    assert (Hpush : ListPushHandler marshal_indent s key v =
                    (s1, Respond {| status := Some 200;
                                    header := [("Content-Type", "application/json")];
                                    body := marshal_indent (default [] (lists s !! key) ++ [v]) |})).
    { unfold ListPushHandler, list_add, ListRangeHandler, list_get_all. rewrite Hup. cbn [up lists].
      rewrite lookup_insert_eq. reflexivity. }
    destruct (IH s1 eq_refl) as (H1 & H2 & H3 & H4 & H5).
    assert (Hs1 : lists s1 !! key = Some (default [] (lists s !! key) ++ [v]))
      by (cbn [lists s1]; apply lookup_insert_eq).
    rewrite Hs1 in H2, H5.
    cbn [push_all]. rewrite Hpush. cbn [fst snd].
    split; [exact H1|]. split.
    + etransitivity; [exact H2|]. cbn [default from_option id]. rewrite <- app_assoc. reflexivity.
    + split.
      * intros k' Hk. rewrite (H3 k' Hk). cbn [lists s1]. apply lookup_insert_ne. congruence.
      * split; [cbn; rewrite H4; reflexivity|].
        intros [|i] Hi; [reflexivity|].
        cbn in Hi. etransitivity; [exact (H5 i ltac:(lia))|].
        cbn [default from_option id take]. rewrite <- app_assoc. reflexivity.
Qed.

Lemma push_all_appends_witness :
  up demo_store = true /\
  (push_all (String.concat ",") demo_store "guests" ["bob"; "cy"]).2 !! 1%nat =
    Some (Respond {| status := Some 200;
                     header := [("Content-Type", "application/json")];
                     body := String.concat "," (["ann"] ++ take 2 ["bob"; "cy"]) |}).
Proof.
  split; [reflexivity|].
  destruct (push_all_appends (String.concat ",") demo_store "guests" ["bob"; "cy"] eq_refl)
    as (_ & _ & _ & _ & H).
  exact (H 1%nat ltac:(cbn; lia)).
Defined.

(** ** The router *)

Lemma strip_prefix_spec p s r : strip_prefix p s = Some r -> s = p +:+ r.
Proof.
  revert s. induction p as [|a p IH]; intros s H.
  - injection H as <-. reflexivity.
  - destruct s as [|b s]; [discriminate|]. cbn in H.
    destruct (ascii_dec a b) as [<-|]; [|discriminate].
    rewrite str_app_String. f_equal. apply IH, H.
Qed.

Lemma strip_prefix_app p r : strip_prefix p (p +:+ r) = Some r.
Proof.
  induction p as [|a p IH]; [destruct r; reflexivity|].
  rewrite str_app_String. cbn. destruct (ascii_dec a a); [exact IH | congruence].
Qed.

Lemma str_app_nil_r s : s +:+ "" = s.
Proof. induction s as [|a s IH]; [reflexivity|]. rewrite str_app_String, IH. reflexivity. Qed.

Lemma segment_spec s :
  s = (segment s).1 +:+ (segment s).2 /\ has_char "/" (segment s).1 = false /\
  ((segment s).2 = "" \/ exists r, (segment s).2 = String "/" r).
Proof.
  induction s as [|a s IH]; [cbn; auto|].
  cbn [segment]. destruct (ascii_dec a "/") as [->|Ha].
  - cbn [fst snd]. split; [reflexivity|]. split; [reflexivity|]. right. eauto.
  - cbn [fst snd]. destruct IH as (H1 & H2 & H3).
    split; [rewrite str_app_String, <- H1; reflexivity|]. split; [|exact H3].
    cbn. destruct (ascii_dec a "/"); [contradiction | exact H2].
Qed.

Lemma segment_app k r :
  has_char "/" k = false -> (r = "" \/ exists r', r = String "/" r') ->
  segment (k +:+ r) = (k, r).
Proof.
  intros Hk Hr. induction k as [|a k IH].
  - rewrite str_app_nil_l. destruct Hr as [->|(r' & ->)]; [reflexivity|].
    cbn. destruct (ascii_dec "/" "/"); [reflexivity | congruence].
  - cbn [has_char] in Hk. destruct (ascii_dec a "/"); [discriminate|].
    rewrite str_app_String. cbn [segment]. destruct (ascii_dec a "/"); [contradiction|].
    rewrite (IH Hk). reflexivity.
Qed.

Lemma match_path_nil path vs : match_path [] path = Some vs -> path = "" /\ vs = [].
Proof. destruct path; cbn; [intros [=]; auto | discriminate]. Qed.

Lemma mux_match_sound rs meth path b h vs :
  mux_match rs meth path b = Matched h vs ->
  exists t m, In (t, m, h) rs /\ match_path t path = Some vs /\ m = meth.
Proof.
  revert b. induction rs as [|[[t m] h'] rs IH]; intros b; cbn.
  - destruct b; discriminate.
  - destruct (match_path t path) as [vs'|] eqn:Hm.
    + destruct (String.eqb m meth) eqn:He.
      * intros [= <- <-]. apply String.eqb_eq in He. exists t, m. auto.
      * intros H. destruct (IH _ H) as (t1 & m1 & ?). exists t1, m1. tauto.
    + intros H. destruct (IH _ H) as (t1 & m1 & ?). exists t1, m1. tauto.
Qed.

Lemma route_lit i t m h path vs :
  routes !! i = Some (t, m, h) -> match_path t path = Some vs ->
  exists l t' rest, t = Lit l :: t' /\ path = l +:+ rest.
Proof.
  intros Hi Hm.
  assert (Ht : exists l t', t = Lit l :: t').
  { destruct i as [|[|[|[|[|[|[|i]]]]]]]; cbn in Hi; try discriminate;
      injection Hi as <- _ _; eauto. }
  destruct Ht as (l & t' & ->). cbn in Hm.
  destruct (strip_prefix l path) as [rest|] eqn:Hs; [|discriminate].
  exists l, t', rest. split; [reflexivity|]. apply strip_prefix_spec, Hs.
Qed.

(** No path matches the templates of two different routes of [main]:
    which handler serves a path does not depend on the order in which
    the routes are registered. *)
Theorem routes_disjoint (path : string) (i j : nat) t1 m1 h1 t2 m2 h2 :
  routes !! i = Some (t1, m1, h1) -> routes !! j = Some (t2, m2, h2) ->
  is_Some (match_path t1 path) -> is_Some (match_path t2 path) -> i = j.
Proof.
  intros Hi Hj [vs1 Hm1] [vs2 Hm2].
  destruct (route_lit _ _ _ _ _ _ Hi Hm1) as (l1 & t1' & r1 & Ht1 & Hp1).
  destruct (route_lit _ _ _ _ _ _ Hj Hm2) as (l2 & t2' & r2 & Ht2 & Hp2).
  subst t1 t2. rewrite Hp1 in Hp2. clear Hm1 Hm2 Hp1.
  destruct i as [|[|[|[|[|[|[|i]]]]]]]; cbn in Hi; try discriminate;
    injection Hi as <- _ _;
    destruct j as [|[|[|[|[|[|[|j]]]]]]]; cbn in Hj; try discriminate;
    injection Hj as <- _ _; try reflexivity;
    rewrite !str_app_String in Hp2; congruence.
Qed.

Lemma routes_disjoint_witness :
  routes !! 0%nat = Some ([Lit "/lrange/"; Var "key"], "GET", HListRange) /\
  routes !! 0%nat = Some ([Lit "/lrange/"; Var "key"], "GET", HListRange) /\
  is_Some (match_path [Lit "/lrange/"; Var "key"] "/lrange/guests") /\
  (0 = 0)%nat.
Proof.
  assert (H1 : routes !! 0%nat = Some ([Lit "/lrange/"; Var "key"], "GET", HListRange))
    by reflexivity.
  assert (H2 : is_Some (match_path [Lit "/lrange/"; Var "key"] "/lrange/guests"))
    by (eexists; reflexivity).
  split; [exact H1|]. split; [exact H1|]. split; [exact H2|].
  exact (routes_disjoint "/lrange/guests" 0 0 _ _ _ _ _ _ H1 H1 H2 H2).
Defined.

Lemma mux_match_cons t m h rs meth path b :
  mux_match ((t, m, h) :: rs) meth path b =
  match match_path t path with
  | Some vs => if String.eqb m meth then Matched h vs else mux_match rs meth path true
  | None => mux_match rs meth path b
  end.
Proof. reflexivity. Qed.

Lemma match_path_lit l t path :
  match_path (Lit l :: t) path = (rest ← strip_prefix l path; match_path t rest).
Proof. reflexivity. Qed.

Lemma match_path_var n t path :
  match_path (Var n :: t) path =
  (let p := segment path in
   if String.eqb p.1 "" then None else vs ← match_path t p.2; Some ((n, p.1) :: vs)).
Proof. reflexivity. Qed.

Lemma match_var_end n path vs :
  match_path [Var n] path = Some vs <->
  path <> "" /\ has_char "/" path = false /\ vs = [(n, path)].
Proof.
  rewrite match_path_var. destruct (segment_spec path) as (Hp & Hs & _).
  split.
  - cbn zeta. destruct (String.eqb (segment path).1 "") eqn:He; [discriminate|].
    destruct (match_path [] (segment path).2) as [vs'|] eqn:Hm; [|discriminate].
    apply match_path_nil in Hm as [H2 ->]. intros [= <-].
    rewrite H2, str_app_nil_r in Hp. rewrite <- Hp in He, Hs |- *.
    apply String.eqb_neq in He. auto.
  - intros (Hne & Hsl & ->).
    assert (Hseg : segment path = (path, "")).
    { rewrite <- (str_app_nil_r path) at 1. exact (segment_app path "" Hsl (or_introl eq_refl)). }
    rewrite Hseg. cbn zeta. cbn [fst snd]. apply String.eqb_neq in Hne. rewrite Hne. reflexivity.
Qed.

Lemma match_lrange path vs :
  match_path [Lit "/lrange/"; Var "key"] path = Some vs <->
  exists k, path = "/lrange/" +:+ k /\ k <> "" /\ has_char "/" k = false /\ vs = [("key", k)].
Proof.
  rewrite match_path_lit. split.
  - destruct (strip_prefix "/lrange/" path) as [k|] eqn:Hs; [|discriminate].
    cbn [mbind option_bind]. intros Hm. apply match_var_end in Hm as (? & ? & ->).
    exists k. apply strip_prefix_spec in Hs. auto.
  - intros (k & -> & Hk & Hsl & ->). rewrite strip_prefix_app.
    cbn [mbind option_bind]. apply match_var_end. auto.
Qed.

Lemma match_rpush path vs :
  match_path [Lit "/rpush/"; Var "key"; Lit "/"; Var "value"] path = Some vs <->
  exists k v, path = "/rpush/" +:+ k +:+ "/" +:+ v /\ k <> "" /\ v <> "" /\
    has_char "/" k = false /\ has_char "/" v = false /\ vs = [("key", k); ("value", v)].
Proof.
  rewrite match_path_lit. split.
  - destruct (strip_prefix "/rpush/" path) as [r|] eqn:Hs; [|discriminate].
    apply strip_prefix_spec in Hs. cbn [mbind option_bind].
    rewrite match_path_var. destruct (segment_spec r) as (Hr & Hk & _).
    destruct (segment r) as [k rest]. cbn [fst snd] in Hr, Hk |- *. cbn zeta.
    destruct (String.eqb k "") eqn:He; [discriminate|].
    rewrite match_path_lit.
    destruct (strip_prefix "/" rest) as [v|] eqn:Hv; [|discriminate].
    apply strip_prefix_spec in Hv. cbn [mbind option_bind].
    destruct (match_path [Var "value"] v) as [vs'|] eqn:Hm; [|discriminate].
    apply match_var_end in Hm as (Hvne & Hvs & ->). intros [= <-].
    apply String.eqb_neq in He.
    exists k, v. rewrite Hs, Hr, Hv. auto 7.
  - intros (k & v & -> & Hk & Hv & Hks & Hvs & ->). rewrite strip_prefix_app.
    cbn [mbind option_bind]. rewrite match_path_var.
    rewrite (segment_app k ("/" +:+ v) Hks (or_intror (ex_intro _ v eq_refl))).
    cbn zeta. cbn [fst snd]. apply String.eqb_neq in Hk. rewrite Hk.
    rewrite match_path_lit, strip_prefix_app. cbn [mbind option_bind].
    assert (Hm : match_path [Var "value"] v = Some [("value", v)]) by (apply match_var_end; auto).
    rewrite Hm. reflexivity.
Qed.

(** [cleanPath] *)

Definition elem_ok (s : string) : Prop :=
  s <> "" /\ s <> "." /\ s <> ".." /\ has_char "/" s = false.

Lemma Split_no_char s c : Forall (fun e => has_char c e = false) (Split s c).
Proof.
  induction s as [|a s IH]; cbn [Split]; [repeat constructor|].
  destruct (Split s c) as [|p ps] eqn:Hs.
  - destruct (ascii_dec a c); repeat constructor; cbn.
    destruct (ascii_dec a c); [contradiction | reflexivity].
  - destruct (ascii_dec a c); [constructor; [reflexivity | exact IH]|].
    apply Forall_cons in IH as [Hp Hps]. constructor; [|exact Hps].
    cbn. destruct (ascii_dec a c); [contradiction | exact Hp].
Qed.

Lemma clean_elems_ok kept es :
  Forall (fun e => has_char "/" e = false) es -> Forall elem_ok kept ->
  Forall elem_ok (clean_elems kept es).
Proof.
  revert kept. induction es as [|e es IH]; intros kept Hes Hk; cbn [clean_elems]; [exact Hk|].
  apply Forall_cons in Hes as [He Hes].
  destruct (String.eqb e "") eqn:H1; [apply IH; assumption|].
  destruct (String.eqb e ".") eqn:H2; [apply IH; assumption|]. cbn [orb].
  destruct (String.eqb e "..") eqn:H3.
  - apply IH; [exact Hes|]. destruct kept as [|k kept]; [constructor|].
    apply Forall_cons in Hk as [_ Hk]. exact Hk.
  - apply IH; [exact Hes|]. constructor; [|exact Hk].
    apply String.eqb_neq in H1, H2, H3. repeat split; assumption.
Qed.

Lemma clean_elems_plain kept es :
  Forall elem_ok es -> clean_elems kept es = rev es ++ kept.
Proof.
  revert kept. induction es as [|e es IH]; intros kept Hes; [reflexivity|].
  apply Forall_cons in Hes as [(H1 & H2 & H3 & _) Hes].
  cbn [clean_elems]. apply String.eqb_neq in H1, H2, H3. rewrite H1, H2, H3. cbn [orb].
  rewrite IH by exact Hes. cbn [rev]. rewrite <- app_assoc. reflexivity.
Qed.

Lemma Split_Join_slash l :
  Forall (fun e => has_char "/" e = false) l -> l <> [] -> Split (Join l "/") "/" = l.
Proof.
  induction l as [|e l IH]; intros Hl Hne; [contradiction|].
  apply Forall_cons in Hl as [He Hl].
  destruct l as [|e' l].
  - apply Split_no_sep, He.
  - change (Join (e :: e' :: l) "/") with (e +:+ String "/" (Join (e' :: l) "/")).
    rewrite (Split_first e _ "/" He), IH by (assumption || discriminate). reflexivity.
Qed.

Lemma Split_rooted l :
  Forall (fun e => has_char "/" e = false) l -> l <> [] ->
  Split ("/" +:+ Join l "/") "/" = "" :: l.
Proof.
  intros Hl Hne. change ("/" +:+ Join l "/") with ("" +:+ String "/" (Join l "/")).
  rewrite (Split_first "" _ "/" eq_refl), Split_Join_slash by assumption. reflexivity.
Qed.

Lemma ends_with_slash_app a s : s <> "" -> ends_with_slash (a +:+ s) = ends_with_slash s.
Proof.
  intros Hs. induction a as [|c a IH]; [reflexivity|].
  rewrite str_app_String. cbn [ends_with_slash].
  destruct (a +:+ s) eqn:Has; [|exact IH].
  destruct a; [rewrite str_app_nil_l in Has; contradiction | discriminate].
Qed.

Lemma ends_with_slash_free s : has_char "/" s = false -> ends_with_slash s = false.
Proof.
  induction s as [|c s IH]; intros H; [reflexivity|].
  cbn [has_char] in H. destruct (ascii_dec c "/"); [discriminate|].
  cbn [ends_with_slash]. destruct s; [destruct (ascii_dec c "/"); [contradiction | reflexivity]|].
  apply IH, H.
Qed.

Lemma Join_nonempty e l : e <> "" -> Join (e :: l) "/" <> "".
Proof.
  destruct e as [|c e]; [contradiction|]. intros _.
  destruct l as [|e' l]; [discriminate|].
  change (Join (String c e :: e' :: l) "/") with (String c (e +:+ "/" +:+ Join (e' :: l) "/")).
  discriminate.
Qed.

Lemma ends_with_slash_Join l :
  Forall (fun e => e <> "" /\ has_char "/" e = false) l -> ends_with_slash (Join l "/") = false.
Proof.
  induction l as [|e l IH]; intros Hl; [reflexivity|].
  apply Forall_cons in Hl as [[He Hes] Hl].
  destruct l as [|e' l]; [apply ends_with_slash_free, Hes|].
  apply Forall_cons in Hl as Hl'. destruct Hl' as [[He' _] _].
  change (Join (e :: e' :: l) "/") with (e +:+ "/" +:+ Join (e' :: l) "/").
  assert (Hj : Join (e' :: l) "/" <> "") by (apply Join_nonempty, He').
  rewrite (ends_with_slash_app e), (ends_with_slash_app "/") by (exact Hj || discriminate).
  apply IH, Hl.
Qed.

(** A rooted path of non-empty elements without ['/'] is left as it is
    by [cleanPath] exactly when none of the elements is [.] or [..]. *)
Lemma cleanPath_Join l :
  Forall (fun e => e <> "" /\ has_char "/" e = false) l -> l <> [] ->
  (cleanPath ("/" +:+ Join l "/") = "/" +:+ Join l "/" <-> Forall elem_ok l).
Proof.
  intros Hl Hne.
  assert (Hsl : Forall (fun e => has_char "/" e = false) l)
    by (eapply Forall_impl; [exact Hl | intros e []; assumption]).
  assert (Hend : ends_with_slash ("/" +:+ Join l "/") = false).
  { rewrite ends_with_slash_app; [apply ends_with_slash_Join, Hl|].
    destruct l as [|e l']; [contradiction|]. apply Forall_cons in Hl as [[He _] _].
    apply Join_nonempty, He. }
  assert (Hc : cleanPath ("/" +:+ Join l "/") = clean_rooted ("/" +:+ Join l "/")).
  { change ("/" +:+ Join l "/") with (String "/" (Join l "/")) at 1.
    unfold cleanPath. cbn zeta. destruct (ascii_dec "/" "/"); [|congruence].
    change (String "/" (Join l "/")) with ("/" +:+ Join l "/"). rewrite Hend. reflexivity. }
  rewrite Hc. unfold clean_rooted. rewrite Split_rooted by assumption.
  cbn [clean_elems]. cbn [String.eqb orb].
  split.
  - intros Heq. 
    assert (Hok := clean_elems_ok [] l Hsl (Forall_nil_2 _)).
    apply Forall_rev in Hok.
    destruct (rev (clean_elems [] l)) as [|e es] eqn:Hr.
    + cbn [Join] in Heq. rewrite str_app_nil_r in Heq.
      apply (f_equal (fun p => Split p "/")) in Heq.
      rewrite Split_rooted in Heq by assumption. cbn in Heq.
      injection Heq as Heq. subst l. apply Forall_cons in Hl as [[He _] _]. contradiction.
    + assert (Hsl' : Forall (fun e => has_char "/" e = false) (e :: es)).
      { eapply Forall_impl; [exact Hok|]. intros ? (_ & _ & _ & ?). assumption. }
      apply (f_equal (fun p => Split p "/")) in Heq.
      rewrite (Split_rooted (e :: es) Hsl' ltac:(discriminate)),
        (Split_rooted l Hsl Hne) in Heq.
      injection Heq as <-. exact Hok.
  - intros Hok. rewrite clean_elems_plain, app_nil_r, rev_involutive by exact Hok.
    reflexivity.
Qed.

(** The router sends [GET /lrange/k] to [ListRangeHandler] with
    [key = k], and [GET /rpush/k/v] to [ListPushHandler] with [key = k],
    [value = v], exactly when [k] and [v] are non-empty, contain no
    ['/'] and are neither [.] nor [..]: an empty value, a value with a
    ['/'] in the path, or a dot element (which [cleanPath] redirects) is
    never pushed. *)
Theorem dispatch_list_routes (path : string) (vs : list (string * string)) :
  (dispatch "GET" path = Matched HListRange vs <->
     exists k, path = "/lrange/" +:+ k /\ k <> "" /\ k <> "." /\ k <> ".." /\
               has_char "/" k = false /\ vs = [("key", k)]) /\
  (dispatch "GET" path = Matched HListPush vs <->
     exists k v, path = "/rpush/" +:+ k +:+ "/" +:+ v /\
       k <> "" /\ k <> "." /\ k <> ".." /\ has_char "/" k = false /\
       v <> "" /\ v <> "." /\ v <> ".." /\ has_char "/" v = false /\
       vs = [("key", k); ("value", v)]).
Proof.
  assert (Hlr : forall k, "/lrange/" +:+ k = "/" +:+ Join ["lrange"; k] "/") by reflexivity.
  assert (Hrp : forall k v, "/rpush/" +:+ k +:+ "/" +:+ v = "/" +:+ Join ["rpush"; k; v] "/")
    by reflexivity.
  split; split.
  - unfold dispatch. cbn zeta. destruct (String.eqb (cleanPath path) path) eqn:Hc; [|discriminate].
    intros H. apply mux_match_sound in H as (t & m & Hin & Hm & _).
    cbn in Hin. destruct Hin as [Hin|[Hin|[Hin|[Hin|[Hin|[Hin|[Hin|[]]]]]]]];
      inversion Hin; subst; apply match_lrange in Hm as (k & -> & Hk & Hks & ->).
    apply String.eqb_eq in Hc. rewrite Hlr in Hc.
    apply cleanPath_Join in Hc; [|repeat constructor; done | discriminate].
    apply Forall_cons in Hc as [_ Hc]. apply Forall_cons in Hc as [(H1 & H2 & H3 & H4) _].
    exists k. auto 7.
  - intros (k & -> & Hk & Hk1 & Hk2 & Hks & ->).
    assert (Hc : cleanPath ("/lrange/" +:+ k) = "/lrange/" +:+ k).
    { rewrite Hlr. apply cleanPath_Join; [repeat constructor; done | discriminate |].
      repeat constructor; done. }
    assert (Hex : match_path [Lit "/lrange/"; Var "key"] ("/lrange/" +:+ k) = Some [("key", k)])
      by (apply match_lrange; eauto).
    unfold dispatch. cbn zeta. rewrite Hc, String.eqb_refl.
    unfold routes. rewrite mux_match_cons, Hex. reflexivity.
  - unfold dispatch. cbn zeta. destruct (String.eqb (cleanPath path) path) eqn:Hc; [|discriminate].
    intros H. apply mux_match_sound in H as (t & m & Hin & Hm & _).
    cbn in Hin. destruct Hin as [Hin|[Hin|[Hin|[Hin|[Hin|[Hin|[Hin|[]]]]]]]];
      inversion Hin; subst; apply match_rpush in Hm as (k & v & -> & Hk & Hv & Hks & Hvs & ->).
    apply String.eqb_eq in Hc. rewrite Hrp in Hc.
    apply cleanPath_Join in Hc; [|repeat constructor; done | discriminate].
    apply Forall_cons in Hc as [_ Hc]. apply Forall_cons in Hc as [(H1 & H2 & H3 & H4) Hc].
    apply Forall_cons in Hc as [(H5 & H6 & H7 & H8) _].
    exists k, v. auto 12.
  - intros (k & v & -> & Hk & Hk1 & Hk2 & Hks & Hv & Hv1 & Hv2 & Hvs & ->).
    assert (Hc : cleanPath ("/rpush/" +:+ k +:+ "/" +:+ v) = "/rpush/" +:+ k +:+ "/" +:+ v).
    { rewrite Hrp. apply cleanPath_Join; [repeat constructor; done | discriminate |].
      repeat constructor; done. }
    assert (Hnone : match_path [Lit "/lrange/"; Var "key"] ("/rpush/" +:+ k +:+ "/" +:+ v) = None).
    { destruct (match_path [Lit "/lrange/"; Var "key"] _) as [vs'|] eqn:Hm; [|reflexivity].
      apply match_lrange in Hm as (k' & Hp' & _).
      rewrite !str_app_String in Hp'. congruence. }
    assert (Hex : match_path [Lit "/rpush/"; Var "key"; Lit "/"; Var "value"]
                    ("/rpush/" +:+ k +:+ "/" +:+ v) = Some [("key", k); ("value", v)])
      by (apply match_rpush; exists k, v; auto 7).
    unfold dispatch. cbn zeta. rewrite Hc, String.eqb_refl.
    unfold routes. rewrite mux_match_cons, Hnone, mux_match_cons, Hex. reflexivity.
Qed.

(** ** The [/burn] machine: the end of a request *)

(** A measure that every step of the completing schedule lowers. *)
Definition task_m (t : task) : nat :=
  match tstate t with TRun _ => 2 | TSend => 1 | TDone => 0 end%nat.

Fixpoint tasks_m (ts : list task) : nat :=
  match ts with [] => O | t :: ts => (task_m t + tasks_m ts)%nat end.

Fixpoint ctx_m (cs : list context) : nat :=
  match cs with [] => O | c :: cs => ((if cdone c then 0 else 1) + ctx_m cs)%nat end.

Definition ph_m (W : nat) (p : phase) : nat :=
  match p with
  | PAlloc => 3 * W + 5
  | PCtx => 3 * W + 4
  | PSpawn i => 3 * (W - i) + 2
  | PWait _ => 1
  | PReturned => 0
  end%nat.

Definition measure (W : nat) (st : state) : nat :=
  (ph_m W (ph st) + tasks_m (tasks st) + ctx_m (ctxs st))%nat.

Lemma tasks_m_app ts t : tasks_m (ts ++ [t]) = (tasks_m ts + task_m t)%nat.
Proof. induction ts as [|t' ts IH]; cbn; lia. Qed.

Lemma tasks_m_insert ts k t t' :
  ts !! k = Some t -> (tasks_m (<[k := t']> ts) + task_m t = tasks_m ts + task_m t')%nat.
Proof.
  revert k. induction ts as [|t0 ts IH]; intros k H; [discriminate|].
  destruct k as [|k].
  - change (<[0%nat := t']> (t0 :: ts)) with (t' :: ts).
    injection H as ->. cbn [tasks_m]. lia.
  - change (<[S k := t']> (t0 :: ts)) with (t0 :: <[k := t']> ts).
    specialize (IH k H). cbn [tasks_m]. lia.
Qed.

Lemma exists_not_done ts :
  (count_done ts < length ts)%nat -> exists k t, ts !! k = Some t /\ is_done t = false.
Proof.
  induction ts as [|t ts IH]; cbn; [lia|].
  destruct (is_done t) eqn:Ht.
  - intros H. destruct IH as (k & t' & ? & ?); [lia|]. exists (S k), t'. auto.
  - intros _. exists 0%nat, t. auto.
Qed.

Lemma burn_progress lr rc st :
  inv lr rc st -> ph st <> PReturned ->
  exists a st', exec lr rc st a = Some st' /\
    (measure (Z.to_nat (workers lr)) st' < measure (Z.to_nat (workers lr)) st)%nat.
Proof.
  intros Hinv Hnr. destruct Hinv as [Hsh Hsig _ _ _ _].
  set (W := Z.to_nat (workers lr)).
  unfold shape, signals, ctx_ok in *.
  destruct (ph st) as [| |i|i|] eqn:Hph.
  - subst st. exists AHandler. eexists. split; [reflexivity|].
    unfold measure, init_state. prj. cbn [ph_m tasks_m ctx_m]. lia.
  - destruct Hsh as (Hc & Hh & Ht & _ & _).
    exists AHandler. eexists. split.
    { cbn [exec]. unfold handler_step. rewrite Hph. reflexivity. }
    unfold measure. prj. rewrite Hph, Hc, Ht. cbn [ph_m tasks_m ctx_m app].
    destruct (cdone _); lia.
  - destruct Hsh as ((Hh & (c & Hcs & _) & _) & _ & Hlen & Hi & _).
    exists AHandler. destruct (Z.of_nat i <? workers lr) eqn:Hlt.
    + eexists. split.
      { cbn [exec]. unfold handler_step. rewrite Hph, Hlt, Hh. reflexivity. }
      unfold measure. prj. rewrite Hph, tasks_m_app. cbn [ph_m task_m tstate].
      apply Z.ltb_lt in Hlt. subst W. lia.
    + eexists. split.
      { cbn [exec]. unfold handler_step. rewrite Hph, Hlt. reflexivity. }
      unfold measure, set_ph. prj. rewrite Hph. cbn [ph_m]. lia.
  - destruct Hsh as ((Hh & (c & Hcs & _) & Htc) & _ & Hlen & Hi & _).
    destruct Hsig as (_ & _ & Hs3 & Hs4).
    destruct (Z.of_nat i <? workers lr) eqn:Hlt.
    + destruct (cdone c) eqn:Hcd.
      * (* the deadline has passed: some goroutine has not returned *)
        destruct (exists_not_done (tasks st)) as (k & t & Hk & Hnd).
        { apply Z.ltb_lt in Hlt. subst W. lia. }
        exists (ATask k).
        assert (Hctx : tctx t = 0%nat).
        { eapply (proj1 (Forall_lookup _ _)) in Htc; [exact Htc | exact Hk]. }
        unfold is_done in Hnd. destruct (tstate t) as [x| |] eqn:Hts; [| |discriminate].
        -- eexists. split.
           { cbn [exec]. unfold task_step. rewrite Hk, Hts, Hctx, Hcs. cbn. rewrite Hcd. reflexivity. }
           unfold measure, set_task. prj.
           pose proof (tasks_m_insert (tasks st) k t {| tctx := tctx t; tstate := TSend |} Hk) as Hm.
           unfold task_m in Hm. rewrite Hts, Hctx in Hm. cbn [tstate] in Hm. lia.
        -- eexists. split.
           { cbn [exec]. unfold task_step. rewrite Hk, Hts, Hph, Hlt. reflexivity. }
           unfold measure, set_task, set_ph. prj. rewrite Hph.
           pose proof (tasks_m_insert (tasks st) k t {| tctx := tctx t; tstate := TDone |} Hk) as Hm.
           unfold task_m in Hm. rewrite Hts in Hm. cbn [tstate ph_m] in Hm |- *. lia.
      * exists (AExpire 0%nat). eexists. split.
        { cbn [exec]. unfold expire_step. rewrite Hcs. cbn. rewrite Hcd. reflexivity. }
        unfold measure. prj. rewrite Hcs. cbn [ctx_m mark_done cdone]. rewrite Hcd. lia.
    + exists AHandler. eexists. split.
      { cbn [exec]. unfold handler_step. rewrite Hph, Hlt. reflexivity. }
      unfold measure. prj. rewrite Hph, Hh, Hcs. cbn [ph_m ctx_m mark_done cdone lookup list_lookup].
      destruct (cdone c); cbn; lia.
  - contradiction.
Qed.

(** From every state a [/burn] request can reach, some continuation of
    the schedule brings the handler to its return: the workers, the
    deadline and the receiving loop never deadlock. *)
Theorem burn_can_complete (q : Values) (ncpu : Z) (rc : nat) (st : state) :
  burn_reachable q ncpu rc st ->
  exists sched st', run (resolve q ncpu) rc st sched = Some st' /\ ph st' = PReturned.
Proof.
  unfold burn_reachable. set (lr := resolve q ncpu).
  remember (measure (Z.to_nat (workers lr)) st) as n eqn:Hn.
  revert st Hn. induction n as [n IH] using lt_wf_ind. intros st Hn Hr.
  destruct (ph st) eqn:Hph; [| | | | exists [], st; auto].
  all: destruct (burn_progress lr rc st (inv_reachable _ _ _ Hr)) as (a & st1 & He & Hlt);
       [congruence|];
       assert (Hr1 : reachable lr rc st1) by (apply (reach_step _ _ st st1 Hr); exists a; exact He);
       destruct (IH _ ltac:(subst n; exact Hlt) st1 eq_refl Hr1) as (sched & st' & Hrun & Hret);
       exists (a :: sched), st'; cbn; rewrite He; auto.
Qed.

Lemma burn_can_complete_witness :
  burn_reachable demo_query 4 0 demo_running /\
  exists sched st', run (resolve demo_query 4) 0 demo_running sched = Some st' /\
                    ph st' = PReturned.
Proof.
  split; [exact demo_running_reachable|].
  exact (burn_can_complete demo_query 4 0 demo_running demo_running_reachable).
Defined.



(** ** The memory blocks *)

Lemma byte_of_aligned j : (j mod 256 = 0)%nat -> byte_of j = 0.
Proof.
  intros H. unfold byte_of. change 256 with (Z.of_nat 256).
  rewrite <- (Nat2Z.inj_mod j 256), H. reflexivity.
Qed.

(** [stride] is a multiple of 256, so the loop writes [byte(j) = 0]
    into a block that is zero already. *)
Lemma touch_loop_zero fuel i j n :
  (j mod 256 = 0)%nat -> (touch_loop fuel i j (replicate n 0)).1 = replicate n 0.
Proof.
  revert j. induction fuel as [|fuel IH]; intros j Hj; [reflexivity|].
  cbn [touch_loop]. destruct (Nat.ltb j (length (replicate n 0))) eqn:Hlt; [|reflexivity].
  cbn [fst]. apply Nat.ltb_lt in Hlt. rewrite length_replicate in Hlt.
  rewrite byte_of_aligned by exact Hj.
  rewrite list_insert_id by (apply lookup_replicate_2; exact Hlt).
  apply IH. unfold stride.
  rewrite Nat.Div0.add_mod, Hj. reflexivity.
Qed.

Lemma alloc_loop_zero size n i junk :
  (alloc_loop size n i junk).1 = junk ++ replicate n (replicate size 0).
Proof.
  revert i junk. induction n as [|n IH]; intros i junk; cbn [alloc_loop fst].
  - rewrite app_nil_r. reflexivity.
  - rewrite IH. unfold alloc_block. cbn [fst].
    rewrite touch_loop_zero by reflexivity. rewrite <- app_assoc. reflexivity.
Qed.

Definition write_zero (e : event) : Prop :=
  match e with EWrite _ _ v => v = 0 | _ => True end.

Lemma touch_loop_write_zero fuel i j b :
  (j mod 256 = 0)%nat -> Forall write_zero (touch_loop fuel i j b).2.
Proof.
  revert j b. induction fuel as [|fuel IH]; intros j b Hj; cbn [touch_loop]; [constructor|].
  destruct (Nat.ltb j (length b)); cbn [snd]; [|constructor].
  constructor; [exact (byte_of_aligned j Hj)|].
  apply IH. unfold stride. rewrite Nat.Div0.add_mod, Hj. reflexivity.
Qed.

Lemma alloc_loop_write_zero size n i junk : Forall write_zero (alloc_loop size n i junk).2.
Proof.
  revert i junk. induction n as [|n IH]; intros i junk; cbn [alloc_loop snd]; [constructor|].
  apply Forall_app. split; [|apply IH].
  unfold alloc_block. cbn [snd]. constructor; [exact I|].
  apply touch_loop_write_zero. reflexivity.
Qed.

(** When the memory-pressure loop ends, each of its [memMB] blocks
    holds 1 MiB of zero bytes: [make] zeroes the block, and every write
    [b[j] = byte(j)] of the loop stores [0], since [j] is a multiple of
    4096 and [byte(j)] keeps [j mod 256]. *)
Theorem alloc_blocks_zero (k : Z) :
  (alloc_phase k).1 = replicate (Z.to_nat k) (replicate MiB 0) /\
  (forall i j v, EWrite i j v ∈ (alloc_phase k).2 -> v = 0).
Proof.
  unfold alloc_phase. split; [apply alloc_loop_zero|].
  intros i j v Hin.
  pose proof (alloc_loop_write_zero MiB (Z.to_nat k) 0 []) as Hz.
  rewrite Forall_forall in Hz. exact (Hz _ Hin).
Qed.

(** ** [strconv.Atoi] *)

(** Every byte of [s] is a decimal digit. *)
Fixpoint all_digits (s : string) : bool :=
  match s with
  | EmptyString => true
  | String c s => match digit_val c with Some _ => all_digits s | None => false end
  end.

Lemma digits_acc_all acc s v : digits_acc acc s = Some v -> all_digits s = true.
Proof.
  revert acc. induction s as [|c s IH]; intros acc; cbn; [reflexivity|].
  destruct (digit_val c); [apply IH | discriminate].
Qed.

Lemma digits_all s v : digits s = Some v -> s <> "" /\ all_digits s = true.
Proof.
  destruct s as [|c s]; [discriminate|]. intros H. split; [discriminate|].
  exact (digits_acc_all 0 _ _ H).
Qed.

Lemma in_int_range_spec v w : in_int_range v = Some w -> w = v /\ int_min <= v <= int_max.
Proof.
  unfold in_int_range. destruct ((int_min <=? v) && (v <=? int_max)) eqn:H; [|discriminate].
  intros [= <-]. apply andb_true_iff in H as [H1 H2].
  apply Z.leb_le in H1, H2. auto.
Qed.

Lemma all_digits_space s : all_digits s = true -> has_char " " s = false.
Proof.
  induction s as [|c s IH]; cbn; [reflexivity|].
  destruct (digit_val c) eqn:Hd; [|discriminate]. intros H.
  destruct (ascii_dec c " ") as [->|]; [discriminate | exact (IH H)].
Qed.

(** [Atoi] accepts a string only when it is an optional ['+'] or ['-']
    followed by one or more decimal digits, and returns an [int]; so a
    parameter with a space in it ([seconds=%205]) is not parsed and
    [atoiDefault] falls back to its default. *)
Theorem Atoi_accepts_only_digits (s : string) (v : Z) :
  (Atoi s = Some v ->
     int_min <= v <= int_max /\
     ((exists c rest, (c = "-"%char \/ c = "+"%char) /\ s = String c rest /\
                      rest <> "" /\ all_digits rest = true) \/
      (s <> "" /\ all_digits s = true))) /\
  (has_char " " s = true -> forall d, atoiDefault s d = d).
Proof.
  assert (Hshape : Atoi s = Some v ->
     int_min <= v <= int_max /\
     ((exists c rest, (c = "-"%char \/ c = "+"%char) /\ s = String c rest /\
                      rest <> "" /\ all_digits rest = true) \/
      (s <> "" /\ all_digits s = true))).
  { clear. destruct s as [|c rest]; [discriminate|]. cbn [Atoi].
    destruct (ascii_dec c "-") as [->|Hm]; [|destruct (ascii_dec c "+") as [->|Hp]].
    - destruct (digits rest) as [w|] eqn:Hw; [|discriminate]. cbn [mbind option_bind].
      intros H. apply in_int_range_spec in H as [-> Hr]. split; [exact Hr|].
      left. exists "-"%char, rest. apply digits_all in Hw. intuition.
    - destruct (digits rest) as [w|] eqn:Hw; [|discriminate]. cbn [mbind option_bind].
      intros H. apply in_int_range_spec in H as [-> Hr]. split; [exact Hr|].
      left. exists "+"%char, rest. apply digits_all in Hw. intuition.
    - destruct (digits (String c rest)) as [w|] eqn:Hw; [|discriminate]. cbn [mbind option_bind].
      intros H. apply in_int_range_spec in H as [-> Hr]. split; [exact Hr|].
      right. apply digits_all in Hw. exact Hw. }
  split; [exact Hshape|].
  intros Hsp d. unfold atoiDefault.
  destruct (Atoi s) as [w|] eqn:Ha; [|reflexivity].
  exfalso. clear Hshape.
  destruct s as [|c rest]; [discriminate|]. cbn [Atoi] in Ha.
  destruct (ascii_dec c "-") as [->|Hm]; [|destruct (ascii_dec c "+") as [->|Hp]].
  - destruct (digits rest) as [x|] eqn:Hw; [|discriminate].
    apply digits_all in Hw as [_ Hw]. apply all_digits_space in Hw.
    cbn in Hsp. rewrite Hw in Hsp. discriminate.
  - destruct (digits rest) as [x|] eqn:Hw; [|discriminate].
    apply digits_all in Hw as [_ Hw]. apply all_digits_space in Hw.
    cbn in Hsp. rewrite Hw in Hsp. discriminate.
  - destruct (digits (String c rest)) as [x|] eqn:Hw; [|discriminate].
    apply digits_all in Hw as [_ Hw]. apply all_digits_space in Hw. congruence.
Qed.

Lemma Atoi_accepts_only_digits_witness :
  Atoi "-42" = Some (-42) /\ has_char " " " 5" = true /\
  (int_min <= -42 <= int_max /\
   ((exists c rest, (c = "-"%char \/ c = "+"%char) /\ "-42" = String c rest /\
                    rest <> "" /\ all_digits rest = true) \/
    ("-42" <> "" /\ all_digits "-42" = true))) /\
  atoiDefault " 5" 20 = 20.
Proof.
  split; [reflexivity|]. split; [reflexivity|]. split.
  - apply (proj1 (Atoi_accepts_only_digits "-42" (-42))). reflexivity.
  - apply (proj2 (Atoi_accepts_only_digits " 5" 0)). reflexivity.
Defined.

(** The decimal representation of an integer, [strconv.Itoa]'s output,
    used to state what [Atoi] accepts: the digits of [n >= 0] with no
    leading zero, after a ['-'] for a negative [n]. *)
Fixpoint dec_go (fuel : nat) (n : Z) (acc : string) : string :=
  match fuel with
  | O => acc
  | S f =>
      let acc' := String (ascii_of_nat (48 + Z.to_nat (n mod 10))) acc in
      if n <? 10 then acc' else dec_go f (n / 10) acc'
  end.

Definition decimal (n : Z) : string :=
  if n <? 0 then String "-" (dec_go 64 (- n) "") else dec_go 64 n "".

Lemma digit_val_digit d : (d < 10)%nat -> digit_val (ascii_of_nat (48 + d)) = Some (Z.of_nat d).
Proof.
  intros Hd. unfold digit_val. rewrite nat_ascii_embedding by lia.
  replace ((48 <=? Z.of_nat (48 + d)) && (Z.of_nat (48 + d) <=? 57)) with true
    by (symmetry; apply andb_true_iff; split; apply Z.leb_le; lia).
  f_equal. lia.
Qed.

Lemma dec_go_digits fuel n acc s :
  0 <= n < 10 ^ Z.of_nat fuel -> (0 < fuel)%nat ->
  exists k, digits_acc acc (dec_go fuel n s) = digits_acc (acc * 10 ^ k + n) s /\ 0 <= k.
Proof.
  revert n s acc. induction fuel as [|f IH]; intros n s acc Hn Hf; [lia|].
  cbn [dec_go].
  assert (Hm : (Z.to_nat (n mod 10) < 10)%nat) by (pose proof (Z.mod_pos_bound n 10); lia).
  assert (Hdv := digit_val_digit _ Hm).
  rewrite Z2Nat.id in Hdv by (apply Z.mod_pos_bound; lia).
  destruct (n <? 10) eqn:Hlt.
  - exists 1. cbn [digits_acc]. rewrite Hdv. apply Z.ltb_lt in Hlt.
    rewrite Z.mod_small by lia. split; [f_equal; lia | lia].
  - apply Z.ltb_ge in Hlt.
    destruct f as [|f].
    + cbn in Hn. lia.
    + destruct (IH (n / 10) (String (ascii_of_nat (48 + Z.to_nat (n mod 10))) s) acc)
        as (k & Hk & Hk0).
      * split; [apply Z.div_pos; lia|].
        apply Z.div_lt_upper_bound; [lia|].
        rewrite Nat2Z.inj_succ, Z.pow_succ_r in Hn by lia. lia.
      * lia.
      * exists (k + 1). rewrite Hk. cbn [digits_acc]. rewrite Hdv.
        split; [|lia]. f_equal. rewrite Z.pow_add_r by lia.
        pose proof (Z.div_mod n 10 ltac:(lia)). lia.
Qed.

Lemma dec_go_head fuel n s :
  (0 < fuel)%nat -> exists d rest, dec_go fuel n s = String (ascii_of_nat (48 + d)) rest /\ (d < 10)%nat.
Proof.
  revert n s. induction fuel as [|f IH]; intros n s Hf; [lia|].
  cbn [dec_go]. destruct (n <? 10).
  - eexists _, _. split; [reflexivity|]. pose proof (Z.mod_pos_bound n 10); lia.
  - destruct f as [|f].
    + cbn. eexists _, _. split; [reflexivity|]. pose proof (Z.mod_pos_bound n 10); lia.
    + apply IH. lia.
Qed.

Lemma digits_decimal n : 0 <= n <= 2 ^ 63 -> digits (dec_go 64 n "") = Some n.
Proof.
  intros Hn. destruct (dec_go_head 64 n "" ltac:(lia)) as (d & rest & Hh & _).
  destruct (dec_go_digits 64 n 0 "" ltac:(lia) ltac:(lia)) as (k & Hk & _).
  unfold digits. rewrite Hh. rewrite <- Hh, Hk; cbn; try (f_equal; lia).
Qed.

Lemma digit_not_sign d : (d < 10)%nat ->
  ascii_of_nat (48 + d) <> "-"%char /\ ascii_of_nat (48 + d) <> "+"%char.
Proof.
  intros Hd. split; intros H; apply (f_equal nat_of_ascii) in H;
    rewrite nat_ascii_embedding in H by lia.
  - change (nat_of_ascii "-") with 45%nat in H. lia.
  - change (nat_of_ascii "+") with 43%nat in H. lia.
Qed.

(** [Atoi] reads back the decimal representation of every [int]
    (from [-9223372036854775808] to [9223372036854775807]); so a
    request with [seconds=n] in decimal burns for [n] seconds for every
    positive [int] [n], whatever else the query holds. *)
Theorem Atoi_decimal_roundtrip (n : Z) :
  int_min <= n <= int_max ->
  Atoi (decimal n) = Some n /\
  (1 <= n -> forall q ncpu, seconds (resolve (<["seconds" := [decimal n]]> q) ncpu) = n).
Proof.
  intros Hn.
  assert (HA : Atoi (decimal n) = Some n).
  { unfold decimal, int_min, int_max in *. destruct (n <? 0) eqn:Hneg.
    - apply Z.ltb_lt in Hneg. cbn [Atoi].
      destruct (ascii_dec "-" "-"); [|congruence].
      rewrite digits_decimal by lia. cbn [mbind option_bind].
      unfold in_int_range, int_min, int_max.
      replace (- - n) with n by lia.
      replace ((- 2 ^ 63 <=? n) && (n <=? 2 ^ 63 - 1)) with true
        by (symmetry; apply andb_true_iff; split; apply Z.leb_le; lia).
      reflexivity.
    - apply Z.ltb_ge in Hneg.
      destruct (dec_go_head 64 n "" ltac:(lia)) as (d & rest & Hh & Hd).
      destruct (digit_not_sign d Hd) as [Hm Hp].
      assert (Hdig := digits_decimal n ltac:(lia)).
      rewrite Hh in Hdig |- *. cbn [Atoi].
      destruct (ascii_dec _ "-"); [contradiction|].
      destruct (ascii_dec _ "+"); [contradiction|].
      rewrite Hdig. cbn [mbind option_bind].
      unfold in_int_range, int_min, int_max.
      replace ((- 2 ^ 63 <=? n) && (n <=? 2 ^ 63 - 1)) with true
        by (symmetry; apply andb_true_iff; split; apply Z.leb_le; lia).
      reflexivity. }
  split; [exact HA|].
  intros H1 q ncpu. unfold resolve, Get. cbn [seconds].
  rewrite lookup_insert_eq. unfold atoiDefault. rewrite HA.
  destruct (n <? 1) eqn:Hlt; [apply Z.ltb_lt in Hlt; lia | reflexivity].
Qed.

Lemma Atoi_decimal_roundtrip_witness :
  int_min <= int_min <= int_max /\ Atoi (decimal int_min) = Some int_min.
Proof.
  assert (H : int_min <= int_min <= int_max) by (unfold int_min, int_max; lia).
  split; [exact H|]. exact (proj1 (Atoi_decimal_roundtrip int_min H)).
Defined.

